(** * Global rate-limit synchronisation manager (global.go)

    A shallow embedding of [globalManager]: the two batching loops
    [runAsyncHits] and [runBroadcasts], their flush procedures [sendHits]
    and [updatePeers], and the [Stats] accessor.

    Requests travel through the queues as pointers ([*RateLimitReq]); the
    loops mutate the pointed-to objects, so the embedding carries an explicit
    store of request objects and the batches hold addresses into it.  The
    collaborators of the manager (peer picker, peer list, local evaluation
    and the two remote calls) are parameters of the development; they read
    the requests they are handed and do not write to them.

    [QueueHit] and [QueueUpdate] send on unbuffered channels: a call returns
    when the loop receives the request, which is the event [Recv] below.
    The select statement of a loop and the timer are events of a pipeline;
    one iteration of a loop is one step of the embedding. *)

From Stdlib Require Import ZArith Lia.
From stdpp Require Import gmap strings list fin_maps functions.

Local Open Scope Z_scope.

(** ** Machine integers *)

(** Go's [int64] arithmetic wraps around in two's complement. *)
Definition wrap64 (z : Z) : Z := (z + 2 ^ 63) mod 2 ^ 64 - 2 ^ 63.

Definition add64 (a b : Z) : Z := wrap64 (a + b).

Definition int64 (z : Z) : Prop := - 2 ^ 63 <= z < 2 ^ 63.

(** ** Data model *)

(** Addresses of request objects: a [*RateLimitReq] that is not nil. *)
Definition loc := positive.

(** Modelled from the spec: the type [RateLimitReq] is declared outside
    global.go.  A request identifies a limit by name and unique labels and
    carries a hit increment and a behavior bit mask. *)
Record RateLimitReq := mkReq {
  Name : string;
  UniqueKey : string;
  Hits : Z;
  Behavior : Z
}.

(** Modelled from the spec: [HashKey] is a string derived from the limit
    name and the unique labels of the request. *)
Definition HashKey (r : RateLimitReq) : string :=
  Name r +:+ "_" +:+ UniqueKey r.

Definition set_Hits (n : Z) (r : RateLimitReq) : RateLimitReq :=
  {| Name := Name r; UniqueKey := UniqueKey r; Hits := n; Behavior := Behavior r |}.

Definition set_Behavior (b : Z) (r : RateLimitReq) : RateLimitReq :=
  {| Name := Name r; UniqueKey := UniqueKey r; Hits := Hits r; Behavior := b |}.

(** Modelled from the spec: the global-owner routing bit of the behavior
    mask ([Behavior_GLOBAL]). *)
Definition Behavior_GLOBAL : Z := 2.

(** Modelled from the spec: [RateLimitResp], the opaque result of a local
    evaluation (over-limit flag, limit, remaining, reset time). *)
Record RateLimitResp := mkResp {
  OverLimit : bool;
  RespLimit : Z;
  Remaining : Z;
  ResetTime : Z
}.

(** One entry of an [UpdatePeerGlobalsReq]. *)
Record UpdatePeerGlobal := mkGlobal {
  Key : string;
  Status : RateLimitResp
}.

(** Modelled from the spec: a [PeerClient] names a cluster node and says
    whether that node is the local one. *)
Record PeerClient := mkPeer {
  host : string;
  isOwner : bool
}.

(** Modelled from the spec: [BehaviorConfig], read at construction. *)
Record BehaviorConfig := mkConf {
  GlobalSyncWait : Z;
  GlobalBatchLimit : Z;
  GlobalTimeout : Z
}.

(** Modelled from the spec: [ServerStats], two [int64] counters. *)
Record ServerStats := mkStats {
  AsyncGlobalsCount : Z;
  BroadcastDuration : Z
}.

Definition error := string.

(** Lines written through [gm.log], one constructor per call site. *)
Inductive LogEntry :=
| LogGetPeer (err : error) (key : string)
| LogSendHits (err : error) (peer_host : string)
| LogGetRateLimit (err : error) (key : string)
| LogUpdatePeers (err : error) (peer_host : string).

(** Calls made to the collaborators, with the argument values they were
    given (a remote call serialises the requests it is handed) and the
    error they returned, if any. *)
Inductive Call :=
| CallGetRateLimit (r : RateLimitReq) (res : error + RateLimitResp)
| CallGetPeerRateLimits (peer_host : string) (requests : list RateLimitReq)
    (err : option error)
| CallUpdatePeerGlobals (peer_host : string) (globals : list UpdatePeerGlobal)
    (err : option error).

(** ** The debounce timer *)

Module Interval.

(** Modelled from the spec: [NewInterval] is declared outside global.go.
    The timer is idle or armed with a fire time; [Next] arms an idle timer
    to fire once after the configured wait and does nothing to an armed
    one; on firing the timer goes idle again and its signal [C] becomes
    readable. *)
Record t := mk {
  wait : Z;
  deadline : option Z;
  C : bool
}.

Definition NewInterval (d : Z) : t :=
  {| wait := d; deadline := None; C := false |}.

Definition Next (now : Z) (i : t) : t :=
  match deadline i with
  | Some _ => i
  | None => {| wait := wait i; deadline := Some (now + wait i); C := C i |}
  end.

(** The timer fires: possible only when armed and due. *)
Definition fire (now : Z) (i : t) : option t :=
  match deadline i with
  | Some d =>
      if d <=? now then Some {| wait := wait i; deadline := None; C := true |}
      else None
  | None => None
  end.

(** [<-interval.C]: possible only when the signal is readable. *)
Definition recv (i : t) : option t :=
  if C i then Some {| wait := wait i; deadline := deadline i; C := false |}
  else None.

Definition armed (i : t) : Prop := is_Some (deadline i).

End Interval.

(** ** Stats *)

(** [Stats(clear)]: the snapshot is taken first; the deferred function
    stores zero in both counters when [clear] is set. *)
Definition Stats (clear : bool) (s : ServerStats) : ServerStats * ServerStats :=
  let snapshot :=
    {| AsyncGlobalsCount := AsyncGlobalsCount s;
       BroadcastDuration := BroadcastDuration s |} in
  if clear then
    (snapshot, {| AsyncGlobalsCount := 0; BroadcastDuration := 0 |})
  else (snapshot, s).

(** ** The manager *)

(** What one iteration of a loop selects. *)
Inductive Select :=
| Recv (r : loc)      (* a request arrives on the loop's queue *)
| IntervalC           (* the timer's signal is read *)
| DoneC.              (* the wait group asks the loop to stop *)

(** Clock readings an iteration observes: the time at which it reaches
    [interval.Next()], and the value [updatePeers] computes for
    [int64(time.Now().Sub(start))] should the iteration flush. *)
Record Clock := mkClock {
  now : Z;
  elapsed : Z
}.

(** An event of a pipeline: an iteration of its loop, or its timer firing. *)
Inductive Event :=
| Iter (c : Clock) (s : Select)
| Expire (at_time : Z).

(** Result of one call of the function handed to [wg.Until]: it returned
    true, it returned false, or the selected case was not ready. *)
Inductive Outcome (S : Type) :=
| Continue (s : S)
| Exit (s : S)
| NotReady.
Arguments Continue {S} s.
Arguments Exit {S} s.
Arguments NotReady {S}.

(** [for _, v := range m]: Go visits the entries of a map once each, in an
    order of its own choosing. *)
Class GoRuntime := {
  range : forall A : Type, gmap string A -> list (string * A);
  range_perm : forall A (m : gmap string A), range A m ≡ₚ map_to_list m
}.

(** What the manager calls on its [Instance] (whose state is [Inst]) and on
    the peer clients: [gm.instance.GetPeer], [gm.instance.GetPeerList],
    [gm.instance.getRateLimit] (which may update the instance), and the two
    remote calls, where [Some e] is a failed call. *)
Class Collaborators (Inst : Type) := {
  GetPeer : Inst -> string -> error + PeerClient;
  GetPeerList : Inst -> list PeerClient;
  getRateLimit : Inst -> RateLimitReq -> Inst * (error + RateLimitResp);
  GetPeerRateLimits : PeerClient -> list RateLimitReq -> option error;
  UpdatePeerGlobals : PeerClient -> list UpdatePeerGlobal -> option error
}.

(** Everything the manager reads and writes outside its loops. *)
Record World (Inst : Type) := mkWorld {
  heap : loc -> RateLimitReq;
  inst : Inst;
  stats : ServerStats;
  log : list LogEntry;
  calls : list Call
}.
Arguments mkWorld {Inst} heap inst stats log calls.
Arguments heap {Inst} w.
Arguments inst {Inst} w.
Arguments stats {Inst} w.
Arguments log {Inst} w.
Arguments calls {Inst} w.

(** The local type [pair] of [sendHits]. *)
Record peer_pair := mkPair {
  client : PeerClient;
  req : list loc
}.

(** State of a loop: its batch ([hits] in [runAsyncHits], [updates] in
    [runBroadcasts]) and its timer. *)
Record Loop := mkLoop {
  batch : gmap string loc;
  interval : Interval.t
}.

Section Manager.

Context {go : GoRuntime} {Inst : Type} {collab : Collaborators Inst}.

Definition set_heap (h : loc -> RateLimitReq) (w : World Inst) : World Inst :=
  {| heap := h; inst := inst w; stats := stats w; log := log w; calls := calls w |}.

Definition set_inst (i : Inst) (w : World Inst) : World Inst :=
  {| heap := heap w; inst := i; stats := stats w; log := log w; calls := calls w |}.

Definition set_stats (s : ServerStats) (w : World Inst) : World Inst :=
  {| heap := heap w; inst := inst w; stats := s; log := log w; calls := calls w |}.

Definition Errorf (e : LogEntry) (w : World Inst) : World Inst :=
  {| heap := heap w; inst := inst w; stats := stats w; log := log w ++ [e];
     calls := calls w |}.

Definition called (c : Call) (w : World Inst) : World Inst :=
  {| heap := heap w; inst := inst w; stats := stats w; log := log w;
     calls := calls w ++ [c] |}.

(** *** sendHits *)

(** First loop of [sendHits]: assign each request to a peer. *)
Fixpoint assign_peers (rs : list loc) (w : World Inst)
    (peerRequests : gmap string peer_pair) : World Inst * gmap string peer_pair :=
  match rs with
  | [] => (w, peerRequests)
  | r :: rs' =>
      match GetPeer (inst w) (HashKey (heap w r)) with
      | inl err =>
          assign_peers rs' (Errorf (LogGetPeer err (HashKey (heap w r))) w)
            peerRequests
      | inr peer =>
          match peerRequests !! host peer with
          | Some p =>
              assign_peers rs' w
                (<[host peer := {| client := client p; req := req p ++ [r] |}]>
                   peerRequests)
          | None =>
              assign_peers rs' w
                (<[host peer := {| client := peer; req := [r] |}]> peerRequests)
          end
      end
  end.

(** Second loop of [sendHits]: one remote call per destination. *)
Fixpoint send_requests (ps : list peer_pair) (w : World Inst) : World Inst :=
  match ps with
  | [] => w
  | p :: ps' =>
      let requests := heap w <$> req p in
      let err := GetPeerRateLimits (client p) requests in
      let w1 := called (CallGetPeerRateLimits (host (client p)) requests err) w in
      match err with
      | Some e => send_requests ps' (Errorf (LogSendHits e (host (client p))) w1)
      | None => send_requests ps' w1
      end
  end.

Definition sendHits (hits : gmap string loc) (w : World Inst) : World Inst :=
  let '(w1, peerRequests) := assign_peers (range _ hits).*2 w ∅ in
  let w2 := send_requests (range _ peerRequests).*2 w1 in
  set_stats
    {| AsyncGlobalsCount :=
         add64 (AsyncGlobalsCount (stats w2)) (Z.of_nat (size hits));
       BroadcastDuration := BroadcastDuration (stats w2) |} w2.

(** *** updatePeers *)

(** First loop of [updatePeers]: clear, evaluate, collect. *)
Fixpoint collect_globals (rls : list loc) (w : World Inst)
    (Globals : list UpdatePeerGlobal) : World Inst * list UpdatePeerGlobal :=
  match rls with
  | [] => (w, Globals)
  | rl :: rls' =>
      let w1 := set_heap (<[rl := set_Behavior 0 (heap w rl)]> (heap w)) w in
      let w2 := set_heap (<[rl := set_Hits 0 (heap w1 rl)]> (heap w1)) w1 in
      let '(i, res) := getRateLimit (inst w2) (heap w2 rl) in
      let w3 := called (CallGetRateLimit (heap w2 rl) res) (set_inst i w2) in
      match res with
      | inl err =>
          collect_globals rls'
            (Errorf (LogGetRateLimit err (HashKey (heap w3 rl))) w3) Globals
      | inr status =>
          collect_globals rls' w3
            (Globals ++ [{| Key := HashKey (heap w3 rl); Status := status |}])
      end
  end.

(** Second loop of [updatePeers]: send to every peer but ourselves. *)
Fixpoint send_globals (peers : list PeerClient) (Globals : list UpdatePeerGlobal)
    (w : World Inst) : World Inst :=
  match peers with
  | [] => w
  | peer :: peers' =>
      if isOwner peer then send_globals peers' Globals w
      else
        let err := UpdatePeerGlobals peer Globals in
        let w1 := called (CallUpdatePeerGlobals (host peer) Globals err) w in
        match err with
        | Some e =>
            send_globals peers' Globals (Errorf (LogUpdatePeers e (host peer)) w1)
        | None => send_globals peers' Globals w1
        end
  end.

(** [duration] is the value of [int64(time.Now().Sub(start))]. *)
Definition updatePeers (updates : gmap string loc) (duration : Z) (w : World Inst)
    : World Inst :=
  let '(w1, Globals) := collect_globals (range _ updates).*2 w [] in
  let w2 := send_globals (GetPeerList (inst w1)) Globals w1 in
  if BroadcastDuration (stats w2) <? duration then
    set_stats
      {| AsyncGlobalsCount := AsyncGlobalsCount (stats w2);
         BroadcastDuration := duration |} w2
  else w2.

(** *** runAsyncHits *)

Definition State : Type := World Inst * Loop.

(** [hits[key].Hits += r.Hits] or [hits[key] = r]. *)
Definition aggregate (r : loc) (w : World Inst) (hits : gmap string loc)
    : World Inst * gmap string loc :=
  let key := HashKey (heap w r) in
  match hits !! key with
  | Some q =>
      (set_heap
         (<[q := set_Hits (add64 (Hits (heap w q)) (Hits (heap w r))) (heap w q)]>
            (heap w)) w,
       hits)
  | None => (w, <[key := r]> hits)
  end.

Definition runAsyncHits_body (conf : BehaviorConfig) (c : Clock) (s : Select)
    (st : State) : Outcome State :=
  let '(w, l) := st in
  match s with
  | Recv r =>
      let '(w1, hits) := aggregate r w (batch l) in
      if Z.of_nat (size hits) =? GlobalBatchLimit conf then
        Continue (sendHits hits w1, {| batch := ∅; interval := interval l |})
      else if (size hits =? 1)%nat then
        Continue
          (w1, {| batch := hits; interval := Interval.Next (now c) (interval l) |})
      else Continue (w1, {| batch := hits; interval := interval l |})
  | IntervalC =>
      match Interval.recv (interval l) with
      | Some i =>
          if negb (size (batch l) =? 0)%nat then
            Continue (sendHits (batch l) w, {| batch := ∅; interval := i |})
          else Continue (w, {| batch := batch l; interval := i |})
      | None => NotReady
      end
  | DoneC => Exit st
  end.

(** *** runBroadcasts *)

Definition runBroadcasts_body (conf : BehaviorConfig) (c : Clock) (s : Select)
    (st : State) : Outcome State :=
  let '(w, l) := st in
  match s with
  | Recv r =>
      let updates := <[HashKey (heap w r) := r]> (batch l) in
      if Z.of_nat (size updates) =? GlobalBatchLimit conf then
        Continue
          (updatePeers updates (elapsed c) w, {| batch := ∅; interval := interval l |})
      else if (size updates =? 1)%nat then
        Continue
          (w, {| batch := updates; interval := Interval.Next (now c) (interval l) |})
      else Continue (w, {| batch := updates; interval := interval l |})
  | IntervalC =>
      match Interval.recv (interval l) with
      | Some i =>
          if negb (size (batch l) =? 0)%nat then
            Continue
              (updatePeers (batch l) (elapsed c) w, {| batch := ∅; interval := i |})
          else Continue (w, {| batch := batch l; interval := i |})
      | None => NotReady
      end
  | DoneC => Exit st
  end.

(** *** Pipelines: a loop together with its timer *)

Definition pipeline (body : Clock -> Select -> State -> Outcome State)
    (e : Event) (st : State) : Outcome State :=
  match e with
  | Iter c s => body c s st
  | Expire t =>
      match Interval.fire t (interval st.2) with
      | Some i => Continue (st.1, {| batch := batch st.2; interval := i |})
      | None => NotReady
      end
  end.

Fixpoint run (body : Clock -> Select -> State -> Outcome State)
    (es : list Event) (st : State) : Outcome State :=
  match es with
  | [] => Continue st
  | e :: es' =>
      match pipeline body e st with
      | Continue st' => run body es' st'
      | o => o
      end
  end.

(** The loop as [newGlobalManager] starts it. *)
Definition new_loop (conf : BehaviorConfig) : Loop :=
  {| batch := ∅; interval := Interval.NewInterval (GlobalSyncWait conf) |}.

(** States a pipeline can be in, started with an empty batch. *)
Inductive reachable (body : Clock -> Select -> State -> Outcome State)
    (w0 : World Inst) (conf : BehaviorConfig) : State -> Prop :=
| reachable_new : reachable body w0 conf (w0, new_loop conf)
| reachable_step e st st' :
    reachable body w0 conf st ->
    pipeline body e st = Continue st' ->
    reachable body w0 conf st'.

(** A flush of either pipeline, and a sequence of them. *)
Inductive Flush :=
| HitsFlush (hits : gmap string loc)
| BroadcastFlush (updates : gmap string loc) (duration : Z).

Definition flush (f : Flush) (w : World Inst) : World Inst :=
  match f with
  | HitsFlush hits => sendHits hits w
  | BroadcastFlush updates duration => updatePeers updates duration w
  end.

Definition flushes (fs : list Flush) (w : World Inst) : World Inst :=
  foldl (fun w f => flush f w) w fs.

Definition broadcast_durations (fs : list Flush) : list Z :=
  omap (fun f => match f with
                 | HitsFlush _ => None
                 | BroadcastFlush _ d => Some d
                 end) fs.

End Manager.

(** ** Specification vocabulary *)

(** A request as a broadcast flush leaves it: [rl.Behavior = 0] and
    [rl.Hits = 0]. *)
Definition cleared (r : RateLimitReq) : RateLimitReq :=
  set_Hits 0 (set_Behavior 0 r).

(** Requests of a sequence that carry the key [k] in the store [h], the sum
    of their hit increments, and the distinct keys of a sequence. *)
Definition with_key (h : loc -> RateLimitReq) (k : string) (ps : list loc)
    : list loc :=
  filter (fun p => HashKey (h p) = k) ps.

Definition sum_hits (h : loc -> RateLimitReq) (ps : list loc) : Z :=
  foldr (fun p acc => Hits (h p) + acc) 0 ps.

Definition keys_of (h : loc -> RateLimitReq) (ps : list loc) : gset string :=
  list_to_set ((fun p => HashKey (h p)) <$> ps).

(** The batch [hits] and the world [w1] that [runAsyncHits] holds once it
    has received the requests [ps] into an empty batch in the world [w]:
    each key maps to the first request received under it, that request
    carries the wrapped sum of the hits received under the key, and nothing
    else has changed. *)
Definition aggregated {Inst : Type} (w : World Inst) (ps : list loc)
    (w1 : World Inst) (hits : gmap string loc) : Prop :=
  (forall k, hits !! k = head (with_key (heap w) k ps)) /\
  (forall k q, hits !! k = Some q ->
     heap w1 q
     = set_Hits (wrap64 (sum_hits (heap w) (with_key (heap w) k ps))) (heap w q)) /\
  (forall q, (forall k, hits !! k ≠ Some q) -> heap w1 q = heap w q) /\
  inst w1 = inst w /\ stats w1 = stats w /\ calls w1 = calls w /\ log w1 = log w.

(** The requests a loop receives, each with the clock readings of its
    iteration. *)
Definition queued (cps : list (Clock * loc)) : list Event :=
  (fun cp => Iter cp.1 (Recv cp.2)) <$> cps.

(** Calls a remote hit batch makes to one host. *)
Definition hit_calls_to (h : string) (cs : list Call) : list (list RateLimitReq) :=
  omap (fun c => match c with
                 | CallGetPeerRateLimits h' rs _ =>
                     if decide (h' = h) then Some rs else None
                 | _ => None
                 end) cs.

(** Successful local evaluations among a list of calls, as broadcast
    entries. *)
Definition evaluated (cs : list Call) : list UpdatePeerGlobal :=
  omap (fun c => match c with
                 | CallGetRateLimit r (inr status) =>
                     Some {| Key := HashKey r; Status := status |}
                 | _ => None
                 end) cs.

(** The requests that the hit calls among a list of calls carry, all
    together, and the hosts these calls go to. *)
Definition hit_requests (cs : list Call) : list RateLimitReq :=
  mjoin (omap (fun c => match c with
                        | CallGetPeerRateLimits _ rs _ => Some rs
                        | _ => None
                        end) cs).

Definition hit_hosts (cs : list Call) : list string :=
  omap (fun c => match c with
                 | CallGetPeerRateLimits h _ _ => Some h
                 | _ => None
                 end) cs.

(** Whether the peer picker finds an owner for a request. *)
Definition resolves {Inst : Type} {collab : Collaborators Inst} (i : Inst)
    (x : RateLimitReq) : bool :=
  match GetPeer i (HashKey x) with
  | inr _ => true
  | inl _ => false
  end.

(** The log lines of the failed peer lookups for a list of requests, and
    of the calls of a list that returned an error. *)
Definition lookup_errors {Inst : Type} {collab : Collaborators Inst} (i : Inst)
    (xs : list RateLimitReq) : list LogEntry :=
  omap (fun x => match GetPeer i (HashKey x) with
                 | inl err => Some (LogGetPeer err (HashKey x))
                 | inr _ => None
                 end) xs.

Definition call_errors (cs : list Call) : list LogEntry :=
  omap (fun c => match c with
                 | CallGetRateLimit x (inl err) =>
                     Some (LogGetRateLimit err (HashKey x))
                 | CallGetPeerRateLimits h _ (Some err) => Some (LogSendHits err h)
                 | CallUpdatePeerGlobals h _ (Some err) =>
                     Some (LogUpdatePeers err h)
                 | _ => None
                 end) cs.

(** The number of keys that the hit flushes of a sequence of flushes
    carry. *)
Definition hit_keys_flushed (fs : list Flush) : Z :=
  foldr (fun f acc => match f with
                      | HitsFlush hits => Z.of_nat (size hits) + acc
                      | BroadcastFlush _ _ => acc
                      end) 0 fs.

(** A batch whose entries are filed under the hash keys of the requests
    they point to. *)
Definition keyed {Inst : Type} (w : World Inst) (m : gmap string loc) : Prop :=
  forall k r, m !! k = Some r -> HashKey (heap w r) = k.

(** A hit call as the hit pipeline makes them: not empty, no two requests
    with the same hash key, every request owned by a peer of the host
    called.  A call as the broadcast pipeline makes them: the evaluation of
    a cleared request, or a message with no two entries for the same key. *)
Definition hit_call_ok {Inst : Type} {collab : Collaborators Inst} (i : Inst)
    (c : Call) : Prop :=
  match c with
  | CallGetPeerRateLimits h rs _ =>
      rs ≠ [] /\ NoDup (HashKey <$> rs) /\
      forall x, x ∈ rs ->
        exists peer, GetPeer i (HashKey x) = inr peer /\ host peer = h
  | _ => False
  end.

Definition broadcast_call_ok (c : Call) : Prop :=
  match c with
  | CallGetRateLimit x _ => Hits x = 0 /\ Behavior x = 0
  | CallUpdatePeerGlobals _ G _ => NoDup (Key <$> G)
  | CallGetPeerRateLimits _ _ _ => False
  end.

(** ** A concrete cluster

    Three peers, of which [self] is the local node; the peer picker fails for
    the key [limit_K3] and sends [limit_K2] to [p2]; remote calls to [p2] time
    out.  Map iteration follows the order of [map_to_list]. *)

Module Scenario.

#[export] Instance runtime : GoRuntime :=
  {| range := fun A m => map_to_list m;
     range_perm := fun A m => Permutation_refl (map_to_list m) |}.

Definition p1 : PeerClient := {| host := "p1"; isOwner := false |}.
Definition p2 : PeerClient := {| host := "p2"; isOwner := false |}.
Definition self : PeerClient := {| host := "self"; isOwner := true |}.

Definition under_limit : RateLimitResp :=
  {| OverLimit := false; RespLimit := 10; Remaining := 7; ResetTime := 1000 |}.

#[export] Instance cluster : Collaborators unit :=
  {| GetPeer := fun _ k =>
       if String.eqb k "limit_K3" then inl "unable to pick a peer"
       else if String.eqb k "limit_K2" then inr p2
       else inr p1;
     GetPeerList := fun _ => [p1; self; p2];
     getRateLimit := fun i r =>
       (i, if String.eqb (HashKey r) "limit_K3" then inl "cache miss"
           else inr under_limit);
     GetPeerRateLimits := fun peer _ =>
       if String.eqb (host peer) "p2" then Some "deadline exceeded" else None;
     UpdatePeerGlobals := fun peer _ =>
       if String.eqb (host peer) "p2" then Some "deadline exceeded" else None |}.

Definition request (key : string) (hits behavior : Z) : RateLimitReq :=
  {| Name := "limit"; UniqueKey := key; Hits := hits; Behavior := behavior |}.

(** Request objects 1 to 3 hit [K1] once each, 4 to 6 hit [K2], [K3] and
    [K4], and 7 and 8 each carry 2^62 hits for [K5]. *)
Definition objects (p : loc) : RateLimitReq :=
  match p with
  | 1 | 2 | 3 => request "K1" 1 Behavior_GLOBAL
  | 4 => request "K2" 5 Behavior_GLOBAL
  | 5 => request "K3" 2 Behavior_GLOBAL
  | 6 => request "K4" 4 Behavior_GLOBAL
  | 7 | 8 => request "K5" (2 ^ 62) Behavior_GLOBAL
  | _ => request "K0" 0 0
  end%positive.

Definition conf : BehaviorConfig :=
  {| GlobalSyncWait := 100; GlobalBatchLimit := 10; GlobalTimeout := 50 |}.

Definition world : World unit :=
  {| heap := objects; inst := tt;
     stats := {| AsyncGlobalsCount := 0; BroadcastDuration := 0 |};
     log := []; calls := [] |}.

Definition start : World unit * Loop := (world, new_loop conf).

Definition at_time (t : Z) : Clock := {| now := t; elapsed := 0 |}.

(** Three hits on [K1], received at times 0, 1 and 2. *)
Definition three_hits : list (Clock * loc) :=
  [(at_time 0, 1%positive); (at_time 1, 2%positive); (at_time 2, 3%positive)].

(** Two hits of 2^62 on [K5]. *)
Definition two_large_hits : list (Clock * loc) :=
  [(at_time 0, 7%positive); (at_time 1, 8%positive)].

(** The hit loop after the first hit on [K1] at time 0. *)
Definition after_first_hit : World unit * Loop :=
  (world,
   {| batch := {["limit_K1" := 1%positive]};
      interval := {| Interval.wait := 100; Interval.deadline := Some 100;
                     Interval.C := false |} |}).

(** The timer fires at time 100 and the loop reads its signal. *)
Definition timer_flush (duration : Z) : list Event :=
  [Expire 100; Iter {| now := 101; elapsed := duration |} IntervalC].

(** The same cluster with a cache that fails every evaluation. *)
Definition broken_cache : Collaborators unit :=
  {| GetPeer := @GetPeer unit cluster;
     GetPeerList := @GetPeerList unit cluster;
     getRateLimit := fun i _ => (i, inl "cache down");
     GetPeerRateLimits := @GetPeerRateLimits unit cluster;
     UpdatePeerGlobals := @UpdatePeerGlobals unit cluster |}.

(** Configurations with the batch limits 0 and 1. *)
Definition no_limit : BehaviorConfig :=
  {| GlobalSyncWait := 100; GlobalBatchLimit := 0; GlobalTimeout := 50 |}.

Definition limit_one : BehaviorConfig :=
  {| GlobalSyncWait := 100; GlobalBatchLimit := 1; GlobalTimeout := 50 |}.

(** The three hits on [K1] in the opposite order. *)
Definition three_hits_reversed : list (Clock * loc) :=
  [(at_time 0, 3%positive); (at_time 1, 2%positive); (at_time 2, 1%positive)].

(** A hit batch with [K2], [K3] and [K4], and an update batch with [K1]
    and [K2]. *)
Definition some_hits : gmap string loc :=
  {["limit_K2" := 4%positive; "limit_K3" := 5%positive; "limit_K4" := 6%positive]}.

Definition some_updates : gmap string loc :=
  {["limit_K1" := 1%positive; "limit_K2" := 4%positive]}.

End Scenario.

(** ** Properties *)

(** *** Machine integers *)

Lemma wrap64_int64 z : int64 (wrap64 z).
Proof.
  unfold int64, wrap64.
  pose proof (Z.mod_pos_bound (z + 2 ^ 63) (2 ^ 64) ltac:(lia)). lia.
Qed.

Lemma wrap64_id z : int64 z -> wrap64 z = z.
Proof.
  unfold int64, wrap64. intros Hz.
  rewrite Z.mod_small by lia. lia.
Qed.

Lemma wrap64_add_l a b : wrap64 (wrap64 a + b) = wrap64 (a + b).
Proof.
  unfold wrap64. f_equal.
  replace (((a + 2 ^ 63) mod 2 ^ 64 - 2 ^ 63 + b + 2 ^ 63))
    with ((a + 2 ^ 63) mod 2 ^ 64 + b) by lia.
  rewrite Zplus_mod_idemp_l. f_equal. lia.
Qed.

(** *** Stats *)

(** C7: a read with the clear flag returns the counters as they were and
    leaves both at zero, so that the next read without the flag returns
    zeros; a read without the flag returns the counters and changes
    nothing. *)
Theorem Stats_read_and_clear (s : ServerStats) :
  (Stats true s).1 = s /\
  (Stats true s).2 = {| AsyncGlobalsCount := 0; BroadcastDuration := 0 |} /\
  (Stats false (Stats true s).2).1
    = {| AsyncGlobalsCount := 0; BroadcastDuration := 0 |} /\
  (Stats false s).1 = s /\
  (Stats false s).2 = s.
Proof.
  destruct s as [n d]. unfold Stats. simpl. repeat split; reflexivity.
Qed.

Section Properties.

Context {go : GoRuntime} {Inst : Type} {collab : Collaborators Inst}.

Implicit Types (w : World Inst) (l : Loop) (st : World Inst * Loop).
Implicit Types (hits updates : gmap string loc) (r q : loc).

(** *** What the two loops of sendHits leave alone *)

Lemma assign_peers_frame rs : forall w pr,
  heap (assign_peers rs w pr).1 = heap w /\
  inst (assign_peers rs w pr).1 = inst w /\
  stats (assign_peers rs w pr).1 = stats w /\
  calls (assign_peers rs w pr).1 = calls w.
Proof.
  induction rs as [|r rs IH]; intros w pr; simpl; [done|].
  destruct (GetPeer (inst w) (HashKey (heap w r))) as [err|peer].
  - destruct (IH (Errorf (LogGetPeer err (HashKey (heap w r))) w) pr)
      as (-> & -> & -> & ->). done.
  - destruct (pr !! host peer); apply IH.
Qed.

Lemma send_requests_frame ps : forall w,
  heap (send_requests ps w) = heap w /\
  inst (send_requests ps w) = inst w /\
  stats (send_requests ps w) = stats w.
Proof.
  induction ps as [|p ps IH]; intros w; simpl; [done|].
  destruct (GetPeerRateLimits (client p) (heap w <$> req p)) as [e|];
    match goal with |- context [send_requests ps ?w'] =>
      destruct (IH w') as (-> & -> & ->) end; done.
Qed.

Lemma sendHits_frame hits w :
  heap (sendHits hits w) = heap w /\
  inst (sendHits hits w) = inst w /\
  BroadcastDuration (stats (sendHits hits w)) = BroadcastDuration (stats w) /\
  AsyncGlobalsCount (stats (sendHits hits w))
    = add64 (AsyncGlobalsCount (stats w)) (Z.of_nat (size hits)).
Proof.
  unfold sendHits.
  destruct (assign_peers (range loc hits).*2 w ∅) as [w1 pr] eqn:E.
  pose proof (assign_peers_frame (range loc hits).*2 w ∅) as HA.
  rewrite E in HA. simpl in HA. destruct HA as (Hh & Hi & Hs & _).
  destruct (send_requests_frame (range peer_pair pr).*2 w1) as (Hh' & Hi' & Hs').
  simpl. rewrite Hh', Hi', Hs', Hh, Hi, Hs. done.
Qed.

(** C5: a hit-batch flush adds the number of keys of the batch to the
    aggregated-hits counter (an [int64] addition, exact whenever the result
    fits), whatever the peer picker and the remote calls answer. *)
Theorem sendHits_counts_batch_keys hits w :
  AsyncGlobalsCount (stats (sendHits hits w))
    = add64 (AsyncGlobalsCount (stats w)) (Z.of_nat (size (dom hits))) /\
  (int64 (AsyncGlobalsCount (stats w) + Z.of_nat (size (dom hits))) ->
   AsyncGlobalsCount (stats (sendHits hits w))
     = AsyncGlobalsCount (stats w) + Z.of_nat (size (dom hits))).
Proof.
  destruct (sendHits_frame hits w) as (_ & _ & _ & ->).
  rewrite size_dom. split; [done|]. intros Hfit. by apply wrap64_id.
Qed.

(** *** updatePeers *)

Lemma cleared_idemp (x : RateLimitReq) : cleared (cleared x) = cleared x.
Proof. reflexivity. Qed.

Lemma cleared_fields (x : RateLimitReq) :
  Hits (cleared x) = 0 /\ Behavior (cleared x) = 0 /\
  Name (cleared x) = Name x /\ UniqueKey (cleared x) = UniqueKey x /\
  HashKey (cleared x) = HashKey x.
Proof. done. Qed.

(** The first loop of [updatePeers] evaluates every request of the batch,
    cleared, in the order of the iteration; it appends the successful
    evaluations to the message and writes the cleared requests back. *)
Lemma collect_globals_spec rls : forall w G,
  exists evals,
    calls (collect_globals rls w G).1 = calls w ++ evals /\
    (collect_globals rls w G).2 = G ++ evaluated evals /\
    Forall2 (fun rl c => exists res, c = CallGetRateLimit (cleared (heap w rl)) res)
      rls evals /\
    stats (collect_globals rls w G).1 = stats w /\
    forall p, heap (collect_globals rls w G).1 p
              = if decide (p ∈ rls) then cleared (heap w p) else heap w p.
Proof.
  induction rls as [|rl rls IH]; intros w G; simpl.
  - exists []. rewrite !app_nil_r. repeat split; done.
  - set (h2 := <[rl:=set_Hits 0 (<[rl:=set_Behavior 0 (heap w rl)]> (heap w) rl)]>
                 (<[rl:=set_Behavior 0 (heap w rl)]> (heap w))).
    assert (Hrl : h2 rl = cleared (heap w rl)).
    { unfold h2. rewrite !fn_lookup_insert. done. }
    assert (Hother : forall p, p ≠ rl -> h2 p = heap w p).
    { intros p Hp. unfold h2. rewrite !fn_lookup_insert_ne by done. done. }
    assert (Hcl : forall p, cleared (h2 p) = cleared (heap w p)).
    { intros p. destruct (decide (p = rl)) as [->|Hp].
      - rewrite Hrl. apply cleared_idemp.
      - by rewrite Hother. }
    rewrite Hrl.
    destruct (getRateLimit (inst w) (cleared (heap w rl))) as [i res] eqn:Eg.
    assert (Hfin : forall w' G',
      heap w' = h2 -> calls w' = calls w ++ [CallGetRateLimit (cleared (heap w rl)) res] ->
      stats w' = stats w ->
      G' = G ++ evaluated [CallGetRateLimit (cleared (heap w rl)) res] ->
      exists evals,
        calls (collect_globals rls w' G').1 = calls w ++ evals /\
        (collect_globals rls w' G').2 = G ++ evaluated evals /\
        Forall2 (fun rl c => exists res, c = CallGetRateLimit (cleared (heap w rl)) res)
          (rl :: rls) evals /\
        stats (collect_globals rls w' G').1 = stats w /\
        forall p, heap (collect_globals rls w' G').1 p
                  = if decide (p ∈ rl :: rls) then cleared (heap w p) else heap w p).
    { intros w' G' Hh Hc Hs HG.
      destruct (IH w' G') as (evals & Hc' & HG' & Hall & Hs' & Hh').
      exists (CallGetRateLimit (cleared (heap w rl)) res :: evals).
      split_and!.
      - rewrite Hc', Hc, <- app_assoc. done.
      - rewrite HG', HG, <- app_assoc. f_equal.
        symmetry. apply (omap_app _ [_] evals).
      - constructor; [by eexists|].
        eapply Forall2_impl; [|exact Hall]. intros p c [res' ->].
        exists res'. by rewrite Hh, Hcl.
      - by rewrite Hs', Hs.
      - intros p. rewrite Hh'. rewrite Hh.
        destruct (decide (p = rl)) as [->|Hp].
        + rewrite (decide_True (P := rl ∈ rl :: rls)) by apply list_elem_of_here.
          rewrite Hrl. destruct (decide (rl ∈ rls)); done.
        + rewrite Hother by done.
          destruct (decide (p ∈ rls)) as [Hin|Hin].
          * rewrite (decide_True (P := p ∈ rl :: rls)); [done|].
            by apply list_elem_of_further.
          * rewrite (decide_False (P := p ∈ rl :: rls)); [done|].
            by intros [?|?]%elem_of_cons. }
    destruct res as [err|status]; apply Hfin; simpl; try done.
    by rewrite app_nil_r.
Qed.

(** The second loop of [updatePeers] calls every peer of the list whose
    owner flag is unset, in order, with the same message. *)
Lemma send_globals_spec peers G : forall w,
  calls (send_globals peers G w)
    = calls w ++ ((fun peer =>
         CallUpdatePeerGlobals (host peer) G (UpdatePeerGlobals peer G))
       <$> filter (fun peer => isOwner peer = false) peers) /\
  heap (send_globals peers G w) = heap w /\
  stats (send_globals peers G w) = stats w /\
  inst (send_globals peers G w) = inst w.
Proof.
  induction peers as [|peer peers IH]; intros w; simpl.
  - by rewrite app_nil_r.
  - destruct (isOwner peer) eqn:Eo.
    + rewrite filter_cons_False by (rewrite Eo; done). apply IH.
    + rewrite filter_cons_True by done. simpl.
      destruct (UpdatePeerGlobals peer G) as [e|] eqn:Eu;
        match goal with |- context [send_globals peers G ?w'] =>
          destruct (IH w') as (-> & -> & -> & ->) end;
        simpl; rewrite <- ?app_assoc; done.
Qed.

Lemma updatePeers_stats updates d w :
  AsyncGlobalsCount (stats (updatePeers updates d w)) = AsyncGlobalsCount (stats w) /\
  BroadcastDuration (stats (updatePeers updates d w))
    = if BroadcastDuration (stats w) <? d then d else BroadcastDuration (stats w).
Proof.
  unfold updatePeers.
  destruct (collect_globals (range loc updates).*2 w []) as [w1 G] eqn:E.
  destruct (collect_globals_spec (range loc updates).*2 w [])
    as (evals & _ & _ & _ & Hs & _).
  rewrite E in Hs. simpl in Hs.
  destruct (send_globals_spec (GetPeerList (inst w1)) G w1) as (_ & _ & Hs' & _).
  rewrite Hs', Hs. destruct (BroadcastDuration (stats w) <? d) eqn:Ed; simpl;
    rewrite ?Hs', ?Hs; done.
Qed.

Lemma elem_of_range_values {A} (m : gmap string A) (x : A) :
  x ∈ (range A m).*2 <-> exists k, m !! k = Some x.
Proof.
  rewrite (range_perm A m). rewrite list_elem_of_fmap. split.
  - intros ([k y] & -> & Hin). exists k. by apply elem_of_map_to_list.
  - intros [k Hk]. exists (k, x). split; [done|]. by apply elem_of_map_to_list.
Qed.

(** The heap and the calls of a whole broadcast flush. *)
Lemma updatePeers_spec updates d w :
  exists evals,
    Forall2 (fun rl c => exists res, c = CallGetRateLimit (cleared (heap w rl)) res)
      (range loc updates).*2 evals /\
    calls (updatePeers updates d w)
      = calls w ++ evals ++
        ((fun peer =>
            CallUpdatePeerGlobals (host peer) (evaluated evals)
              (UpdatePeerGlobals peer (evaluated evals)))
         <$> filter (fun peer => isOwner peer = false)
               (GetPeerList (inst (updatePeers updates d w)))) /\
    forall p, heap (updatePeers updates d w) p
              = if decide (p ∈ (range loc updates).*2) then cleared (heap w p)
                else heap w p.
Proof.
  unfold updatePeers.
  destruct (collect_globals_spec (range loc updates).*2 w [])
    as (evals & Hc & HG & Hall & Hs & Hh).
  destruct (collect_globals (range loc updates).*2 w []) as [w1 G].
  simpl in *. subst G.
  destruct (send_globals_spec (GetPeerList (inst w1)) (evaluated evals) w1)
    as (Hc' & Hh' & Hs' & Hi').
  exists evals. split; [done|].
  assert (Hgoal : forall w2,
    calls w2 = calls (send_globals (GetPeerList (inst w1)) (evaluated evals) w1) ->
    heap w2 = heap (send_globals (GetPeerList (inst w1)) (evaluated evals) w1) ->
    inst w2 = inst (send_globals (GetPeerList (inst w1)) (evaluated evals) w1) ->
    calls w2 = calls w ++ evals ++
        ((fun peer =>
            CallUpdatePeerGlobals (host peer) (evaluated evals)
              (UpdatePeerGlobals peer (evaluated evals)))
         <$> filter (fun peer => isOwner peer = false) (GetPeerList (inst w2))) /\
    forall p, heap w2 p
              = if decide (p ∈ (range loc updates).*2) then cleared (heap w p)
                else heap w p).
  { intros w2 -> Hh2 Hi2. rewrite Hi2, Hi', Hc', Hc, <- app_assoc.
    split; [done|]. intros p. by rewrite Hh2, Hh', Hh. }
  destruct (BroadcastDuration _ <? d); apply Hgoal; done.
Qed.

(** C4: in every broadcast flush, each entry of the batch is handed to the
    local evaluation with its hit count and behavior flags already zero, and
    each entry of every message sent to a peer comes from such an
    evaluation: no payload is built from a request that carries hits or the
    global-owner flag. *)
Theorem updatePeers_clears_before_evaluating updates d w :
  exists flush_calls,
    calls (updatePeers updates d w) = calls w ++ flush_calls /\
    (forall k rl, updates !! k = Some rl ->
       exists res, CallGetRateLimit (cleared (heap w rl)) res ∈ flush_calls) /\
    (forall x res, CallGetRateLimit x res ∈ flush_calls ->
       Hits x = 0 /\ Behavior x = 0 /\ Z.land (Behavior x) Behavior_GLOBAL = 0) /\
    (forall peer_host G err g,
       CallUpdatePeerGlobals peer_host G err ∈ flush_calls -> g ∈ G ->
       exists x, CallGetRateLimit x (inr (Status g)) ∈ flush_calls /\
                 Key g = HashKey x /\ Hits x = 0 /\ Behavior x = 0).
Proof.
  destruct (updatePeers_spec updates d w) as (evals & Hall & Hc & _).
  eexists. split; [exact Hc|].
  assert (Hev : forall x res, CallGetRateLimit x res ∈ evals ->
                  Hits x = 0 /\ Behavior x = 0).
  { intros x res Hin.
    apply list_elem_of_lookup in Hin as [i Hi].
    destruct (Forall2_lookup_r _ _ _ _ _ Hall Hi) as (rl & _ & res' & Heq).
    by inversion Heq. }
  assert (Hsent : forall x res,
    CallGetRateLimit x res ∈
      ((fun peer =>
          CallUpdatePeerGlobals (host peer) (evaluated evals)
            (UpdatePeerGlobals peer (evaluated evals)))
       <$> filter (fun peer => isOwner peer = false)
             (GetPeerList (inst (updatePeers updates d w)))) -> False).
  { intros x res (peer & Heq & _)%list_elem_of_fmap. done. }
  split_and!.
  - intros k rl Hk.
    assert (Hin : rl ∈ (range loc updates).*2) by (apply elem_of_range_values; eauto).
    apply list_elem_of_lookup in Hin as [i Hi].
    destruct (Forall2_lookup_l _ _ _ _ _ Hall Hi) as (c & Hc' & res & ->).
    exists res. apply elem_of_app. left. by eapply list_elem_of_lookup_2.
  - intros x res [Hin|Hin]%elem_of_app.
    + destruct (Hev x res Hin) as [-> ->]. done.
    + by destruct (Hsent x res).
  - intros h G err g [Hin|Hin]%elem_of_app Hg.
    + apply list_elem_of_lookup in Hin as [i Hi].
      destruct (Forall2_lookup_r _ _ _ _ _ Hall Hi) as (rl & _ & res' & Heq).
      done.
    + apply list_elem_of_fmap in Hin as (peer & Heq & _).
      inversion Heq; subst. unfold evaluated in Hg.
      apply list_elem_of_omap in Hg as (c & Hc' & Hg).
      destruct c as [x [e|status]| |]; try done.
      inversion Hg; subst. simpl. exists x.
      destruct (Hev x _ Hc') as [-> ->].
      split_and!; try done. apply elem_of_app. by left.
Qed.



(** *** The broadcast-duration statistic *)

Lemma flush_duration (f : Flush) w :
  BroadcastDuration (stats (flush f w))
    = match f with
      | HitsFlush _ => BroadcastDuration (stats w)
      | BroadcastFlush _ d =>
          if BroadcastDuration (stats w) <? d then d else BroadcastDuration (stats w)
      end.
Proof.
  destruct f as [hits|updates d]; simpl.
  - by destruct (sendHits_frame hits w) as (_ & _ & -> & _).
  - by destruct (updatePeers_stats updates d w) as [_ ->].
Qed.

(** A step of the hit pipeline never touches the statistic; a step of the
    broadcast pipeline leaves it alone or raises it to the duration that
    the iteration measured. *)
Lemma runAsyncHits_keeps_duration conf e st st' :
  pipeline (runAsyncHits_body conf) e st = Continue st' ->
  BroadcastDuration (stats st'.1) = BroadcastDuration (stats st.1).
Proof.
  destruct st as [w l]. destruct e as [c [r| |]|t]; simpl.
  - assert (Hs : stats (aggregate r w (batch l)).1 = stats w).
    { unfold aggregate. by destruct (batch l !! _). }
    destruct (aggregate r w (batch l)) as [w1 hits]. simpl in Hs.
    destruct (Z.of_nat (size hits) =? GlobalBatchLimit conf).
    + intros [= <-]. simpl.
      destruct (sendHits_frame hits w1) as (_ & _ & -> & _). by rewrite Hs.
    + destruct (size hits =? 1)%nat; intros [= <-]; simpl; by rewrite Hs.
  - destruct (Interval.recv (interval l)); [|done].
    destruct (negb _); intros [= <-]; simpl; [|done].
    by destruct (sendHits_frame (batch l) w) as (_ & _ & -> & _).
  - done.
  - destruct (Interval.fire t (interval l)); [|done]. by intros [= <-].
Qed.

Lemma runBroadcasts_raises_duration conf e st st' :
  pipeline (runBroadcasts_body conf) e st = Continue st' ->
  BroadcastDuration (stats st'.1) = BroadcastDuration (stats st.1) \/
  exists c s, e = Iter c s /\
    BroadcastDuration (stats st.1) < elapsed c /\
    BroadcastDuration (stats st'.1) = elapsed c.
Proof.
  assert (Hflush : forall updates (c : Clock) (s : Select) w,
    BroadcastDuration (stats (updatePeers updates (elapsed c) w))
      = BroadcastDuration (stats w) \/
    exists c' s', Iter c s = Iter c' s' /\
      BroadcastDuration (stats w) < elapsed c' /\
      BroadcastDuration (stats (updatePeers updates (elapsed c) w)) = elapsed c').
  { intros updates c s w.
    destruct (updatePeers_stats updates (elapsed c) w) as [_ ->].
    destruct (BroadcastDuration (stats w) <? elapsed c) eqn:Ed; [|by left].
    apply Z.ltb_lt in Ed. right. by exists c, s. }
  destruct st as [w l]. destruct e as [c [r| |]|t]; simpl.
  - destruct (Z.of_nat _ =? GlobalBatchLimit conf).
    + intros [= <-]. apply Hflush.
    + destruct (_ =? 1)%nat; intros [= <-]; by left.
  - destruct (Interval.recv (interval l)); [|done].
    destruct (negb _); intros [= <-]; [apply Hflush|by left].
  - done.
  - destruct (Interval.fire t (interval l)); [|done]. intros [= <-]. by left.
Qed.

(** C8: the broadcast duration is a high-water mark.  A broadcast flush
    overwrites it only with a duration that strictly exceeds it and a hit
    flush leaves it alone; so after any sequence of flushes it is at least
    what it was, at least every duration observed, and is either unchanged
    or one of the observed durations.  Started from zero (a clear), it is
    the maximum of the durations observed, and once positive it stays
    positive until the next clear.  In the loops themselves, no step of the
    hit pipeline changes it, and a step of the broadcast pipeline changes
    it only to the duration it measured, which then exceeds the old value. *)
Theorem BroadcastDuration_high_water_mark (fs : list Flush) w :
  (forall updates d w',
     BroadcastDuration (stats (updatePeers updates d w'))
       = if BroadcastDuration (stats w') <? d then d
         else BroadcastDuration (stats w')) /\
  (forall hits w',
     BroadcastDuration (stats (sendHits hits w')) = BroadcastDuration (stats w')) /\
  BroadcastDuration (stats w) <= BroadcastDuration (stats (flushes fs w)) /\
  (forall d, d ∈ broadcast_durations fs ->
     d <= BroadcastDuration (stats (flushes fs w))) /\
  (BroadcastDuration (stats (flushes fs w)) = BroadcastDuration (stats w) \/
   BroadcastDuration (stats (flushes fs w)) ∈ broadcast_durations fs) /\
  (BroadcastDuration (stats w) = 0 ->
   broadcast_durations fs ≠ [] ->
   (forall d, d ∈ broadcast_durations fs -> 0 <= d) ->
   BroadcastDuration (stats (flushes fs w)) ∈ broadcast_durations fs) /\
  (0 < BroadcastDuration (stats w) ->
   0 < BroadcastDuration (stats (flushes fs w))) /\
  (forall conf e st st',
     pipeline (runAsyncHits_body conf) e st = Continue st' ->
     BroadcastDuration (stats st'.1) = BroadcastDuration (stats st.1)) /\
  (forall conf e st st',
     pipeline (runBroadcasts_body conf) e st = Continue st' ->
     BroadcastDuration (stats st'.1) = BroadcastDuration (stats st.1) \/
     exists c s, e = Iter c s /\
       BroadcastDuration (stats st.1) < elapsed c /\
       BroadcastDuration (stats st'.1) = elapsed c).
Proof.
  assert (Hmain : forall fs w,
    BroadcastDuration (stats w) <= BroadcastDuration (stats (flushes fs w)) /\
    (forall d, d ∈ broadcast_durations fs ->
       d <= BroadcastDuration (stats (flushes fs w))) /\
    (BroadcastDuration (stats (flushes fs w)) = BroadcastDuration (stats w) \/
     BroadcastDuration (stats (flushes fs w)) ∈ broadcast_durations fs)).
  { clear fs w. induction fs as [|f fs IH]; intros w.
    - simpl. split_and!; [lia| |by left]. intros d Hd. by apply elem_of_nil in Hd.
    - unfold flushes. simpl. fold (flushes fs (flush f w)).
      destruct (IH (flush f w)) as (Hle & Hub & Hin).
      rewrite (flush_duration f w) in Hle, Hin.
      destruct f as [hits|updates d]; simpl in Hle, Hin |- *.
      + done.
      + destruct (BroadcastDuration (stats w) <? d) eqn:Ed;
          [apply Z.ltb_lt in Ed | apply Z.ltb_ge in Ed].
        * split_and!; [lia| |].
          -- intros d' [->|Hd']%elem_of_cons; [lia|by apply Hub].
          -- right. destruct Hin as [->|Hin]; [left|by right].
        * split_and!; [lia| |].
          -- intros d' [->|Hd']%elem_of_cons; [lia|by apply Hub].
          -- destruct Hin as [->|Hin]; [by left|right; by right]. }
  destruct (Hmain fs w) as (Hle & Hub & Hin).
  split_and!; try done.
  - intros updates d w'. by destruct (updatePeers_stats updates d w') as [_ ->].
  - intros hits w'. by destruct (sendHits_frame hits w') as (_ & _ & -> & _).
  - intros H0 Hne Hpos. destruct Hin as [Heq|Hin]; [|done].
    destruct (broadcast_durations fs) as [|d ds] eqn:Eds; [done|].
    assert (Hd : d ∈ d :: ds) by apply list_elem_of_here.
    pose proof (Hub d Hd). pose proof (Hpos d Hd).
    assert (d = 0) as -> by lia. rewrite Heq, H0. apply list_elem_of_here.
  - lia.
  - apply runAsyncHits_keeps_duration.
  - apply runBroadcasts_raises_duration.
Qed.

(** *** Insertion into a batch *)

Lemma aggregate_frame r w hits :
  inst (aggregate r w hits).1 = inst w /\
  stats (aggregate r w hits).1 = stats w /\
  log (aggregate r w hits).1 = log w /\
  calls (aggregate r w hits).1 = calls w /\
  forall p, Name (heap (aggregate r w hits).1 p) = Name (heap w p) /\
            UniqueKey (heap (aggregate r w hits).1 p) = UniqueKey (heap w p) /\
            Behavior (heap (aggregate r w hits).1 p) = Behavior (heap w p) /\
            HashKey (heap (aggregate r w hits).1 p) = HashKey (heap w p).
Proof.
  unfold aggregate. destruct (hits !! HashKey (heap w r)) as [q|]; simpl; [|done].
  split_and!; try done. intros p. destruct (decide (p = q)) as [->|Hp].
  - by rewrite fn_lookup_insert.
  - by rewrite fn_lookup_insert_ne.
Qed.

Lemma aggregate_dom r w hits :
  dom (aggregate r w hits).2 = dom hits ∪ {[HashKey (heap w r)]}.
Proof.
  unfold aggregate. destruct (hits !! HashKey (heap w r)) as [q|] eqn:E; simpl.
  - apply (elem_of_dom_2 hits) in E. symmetry.
    rewrite (comm_L (∪)). apply subseteq_union_1_L.
    by apply singleton_subseteq_l.
  - rewrite dom_insert_L. apply (comm_L (∪)).
Qed.

Lemma size_with_key (D : gset string) (k : string) :
  (size (D ∪ {[k]}) = if decide (k ∈ D) then size D else S (size D))%nat.
Proof.
  case_decide as Hk.
  - f_equal. rewrite (comm_L (∪)). apply subseteq_union_1_L.
    by apply singleton_subseteq_l.
  - rewrite size_union by (by apply disjoint_singleton_r).
    rewrite size_singleton. lia.
Qed.

(** *** The batch stays below the limit *)

Lemma runAsyncHits_below_limit conf w0 st :
  0 < GlobalBatchLimit conf ->
  reachable (runAsyncHits_body conf) w0 conf st ->
  Z.of_nat (size (batch st.2)) < GlobalBatchLimit conf.
Proof.
  intros Hpos Hreach. induction Hreach as [|e [w l] st' _ IH Hstep].
  - simpl. rewrite map_size_empty. lia.
  - destruct e as [c [r| |]|t]; simpl in Hstep.
    + pose proof (aggregate_dom r w (batch l)) as Hdom.
      destruct (aggregate r w (batch l)) as [w1 hits]. simpl in Hdom.
      assert (Hsz : (size hits <= S (size (batch l)))%nat).
      { rewrite <- !size_dom, Hdom, size_with_key. case_decide; lia. }
      destruct (Z.of_nat (size hits) =? GlobalBatchLimit conf) eqn:El.
      * injection Hstep as <-. simpl. rewrite map_size_empty. lia.
      * apply Z.eqb_neq in El. simpl in IH.
        destruct (size hits =? 1)%nat; injection Hstep as <-; simpl; lia.
    + destruct (Interval.recv (interval l)) as [i|]; [|done].
      destruct (negb _); injection Hstep as <-; simpl;
        [rewrite map_size_empty; lia|done].
    + done.
    + destruct (Interval.fire t (interval l)); [|done].
      injection Hstep as <-. done.
Qed.

Lemma runBroadcasts_below_limit conf w0 st :
  0 < GlobalBatchLimit conf ->
  reachable (runBroadcasts_body conf) w0 conf st ->
  Z.of_nat (size (batch st.2)) < GlobalBatchLimit conf.
Proof.
  intros Hpos Hreach. induction Hreach as [|e [w l] st' _ IH Hstep].
  - simpl. rewrite map_size_empty. lia.
  - destruct e as [c [r| |]|t]; simpl in Hstep.
    + assert (Hsz : (size (<[HashKey (heap w r):=r]> (batch l))
                     <= S (size (batch l)))%nat).
      { rewrite <- !size_dom, dom_insert_L, union_comm_L, size_with_key.
        case_decide; lia. }
      destruct (Z.of_nat _ =? GlobalBatchLimit conf) eqn:El.
      * injection Hstep as <-. simpl. rewrite map_size_empty. lia.
      * apply Z.eqb_neq in El. simpl in IH.
        destruct (_ =? 1)%nat; injection Hstep as <-; simpl; lia.
    + destruct (Interval.recv (interval l)) as [i|]; [|done].
      destruct (negb _); injection Hstep as <-; simpl;
        [rewrite map_size_empty; lia|done].
    + done.
    + destruct (Interval.fire t (interval l)); [|done].
      injection Hstep as <-. done.
Qed.

(** C3: with a positive batch limit, in every state either loop can reach
    and for every request it then receives: the loop flushes in that very
    iteration, without a look at the timer, exactly when the insertion
    brings the number of distinct keys of the batch to the limit, and it
    leaves an empty batch behind; otherwise the iteration flushes nothing
    and the batch holds the inserted key; and an insertion under a key the
    batch already holds never brings the batch to the limit. *)
Theorem size_flush_exactly_at_limit conf w0 :
  0 < GlobalBatchLimit conf ->
  (forall st c r,
     reachable (runAsyncHits_body conf) w0 conf st ->
     let keys := dom (batch st.2) ∪ {[HashKey (heap st.1 r)]} in
     let merged := aggregate r st.1 (batch st.2) in
     exists st',
       runAsyncHits_body conf c (Recv r) st = Continue st' /\
       dom merged.2 = keys /\
       (Z.of_nat (size keys) = GlobalBatchLimit conf ->
        st'.1 = sendHits merged.2 merged.1 /\ batch st'.2 = ∅ /\
        interval st'.2 = interval st.2) /\
       (Z.of_nat (size keys) ≠ GlobalBatchLimit conf ->
        st'.1 = merged.1 /\ batch st'.2 = merged.2 /\
        calls st'.1 = calls st.1 /\ stats st'.1 = stats st.1) /\
       (HashKey (heap st.1 r) ∈ dom (batch st.2) ->
        Z.of_nat (size keys) ≠ GlobalBatchLimit conf)) /\
  (forall st c r,
     reachable (runBroadcasts_body conf) w0 conf st ->
     let keys := dom (batch st.2) ∪ {[HashKey (heap st.1 r)]} in
     let inserted := <[HashKey (heap st.1 r) := r]> (batch st.2) in
     exists st',
       runBroadcasts_body conf c (Recv r) st = Continue st' /\
       dom inserted = keys /\
       (Z.of_nat (size keys) = GlobalBatchLimit conf ->
        st'.1 = updatePeers inserted (elapsed c) st.1 /\ batch st'.2 = ∅ /\
        interval st'.2 = interval st.2) /\
       (Z.of_nat (size keys) ≠ GlobalBatchLimit conf ->
        st'.1 = st.1 /\ batch st'.2 = inserted) /\
       (HashKey (heap st.1 r) ∈ dom (batch st.2) ->
        Z.of_nat (size keys) ≠ GlobalBatchLimit conf)).
Proof.
  intros Hpos. split.
  - intros [w l] c r Hreach. simpl.
    pose proof (runAsyncHits_below_limit conf w0 _ Hpos Hreach) as Hlt.
    pose proof (aggregate_dom r w (batch l)) as Hdom.
    destruct (aggregate_frame r w (batch l)) as (_ & Hs & _ & Hc & _).
    destruct (aggregate r w (batch l)) as [w1 hits]. simpl in *.
    rewrite <- Hdom, size_dom.
    destruct (Z.of_nat (size hits) =? GlobalBatchLimit conf) eqn:El;
      [apply Z.eqb_eq in El | apply Z.eqb_neq in El].
    + eexists. split; [done|]. split_and!; try done.
      intros Hin. rewrite <- size_dom, Hdom, size_with_key, decide_True by done.
      rewrite size_dom. lia.
    + assert (Hfin : forall l', batch l' = hits ->
        exists st', Continue (w1, l') = Continue st' /\
          dom hits = dom hits /\
          (Z.of_nat (size hits) = GlobalBatchLimit conf ->
           st'.1 = sendHits hits w1 /\ batch st'.2 = ∅ /\
           interval st'.2 = interval l) /\
          (Z.of_nat (size hits) ≠ GlobalBatchLimit conf ->
           st'.1 = w1 /\ batch st'.2 = hits /\
           calls st'.1 = calls w /\ stats st'.1 = stats w) /\
          (HashKey (heap w r) ∈ dom (batch l) ->
           Z.of_nat (size hits) ≠ GlobalBatchLimit conf)).
      { intros l' Hl'. exists (w1, l'). split_and!; done. }
      destruct (size hits =? 1)%nat; apply Hfin; done.
  - intros [w l] c r Hreach. simpl.
    pose proof (runBroadcasts_below_limit conf w0 _ Hpos Hreach) as Hlt.
    simpl in Hlt. rewrite dom_insert_L, (union_comm_L {[_]}).
    assert (Hsz : size (<[HashKey (heap w r):=r]> (batch l))
                  = size (dom (batch l) ∪ {[HashKey (heap w r)]})).
    { by rewrite <- size_dom, dom_insert_L, (union_comm_L {[_]}). }
    rewrite <- Hsz.
    destruct (Z.of_nat _ =? GlobalBatchLimit conf) eqn:El;
      [apply Z.eqb_eq in El | apply Z.eqb_neq in El].
    + eexists. split; [done|]. split_and!; try done.
      intros Hin. rewrite Hsz, size_with_key, decide_True by done.
      rewrite size_dom. lia.
    + destruct (_ =? 1)%nat; eexists; (split; [done|]); split_and!; done.
Qed.

(** *** Grouping and dispatch in sendHits *)

(** What the first loop of [sendHits] builds: every group is filed under
    the host of its client; a request whose peer is found joins the group
    of that peer's host; nothing else joins a group; and each failed
    lookup is logged. *)
Lemma assign_peers_spec rs : forall w pr,
  (forall h p, pr !! h = Some p -> host (client p) = h) ->
  (forall h p, (assign_peers rs w pr).2 !! h = Some p -> host (client p) = h) /\
  (forall h p0 r, pr !! h = Some p0 -> r ∈ req p0 ->
     exists p, (assign_peers rs w pr).2 !! h = Some p /\ r ∈ req p) /\
  (forall r peer, r ∈ rs -> GetPeer (inst w) (HashKey (heap w r)) = inr peer ->
     exists p, (assign_peers rs w pr).2 !! host peer = Some p /\ r ∈ req p) /\
  (forall h p r, (assign_peers rs w pr).2 !! h = Some p -> r ∈ req p ->
     (exists p0, pr !! h = Some p0 /\ r ∈ req p0) \/
     (r ∈ rs /\ exists peer,
        GetPeer (inst w) (HashKey (heap w r)) = inr peer /\ host peer = h)) /\
  (forall r err, r ∈ rs -> GetPeer (inst w) (HashKey (heap w r)) = inl err ->
     LogGetPeer err (HashKey (heap w r)) ∈ log (assign_peers rs w pr).1) /\
  (forall e, e ∈ log w -> e ∈ log (assign_peers rs w pr).1).
Proof.
  induction rs as [|r0 rs IH]; intros w pr Hkeyed; simpl.
  - split_and!; try done.
    + intros h p0 r Hp0 Hr. eauto.
    + intros r peer Hr. by apply elem_of_nil in Hr.
    + intros h p r Hp Hr. left. eauto.
    + intros r err Hr. by apply elem_of_nil in Hr.
  - destruct (GetPeer (inst w) (HashKey (heap w r0))) as [err0|peer0] eqn:Eg.
    + destruct (IH (Errorf (LogGetPeer err0 (HashKey (heap w r0))) w) pr Hkeyed)
        as (I1 & I2 & I3 & I4 & I5 & I6). simpl in *.
      split_and!; try done.
      * intros r peer [->|Hr]%elem_of_cons Hpeer; [congruence|by apply I3].
      * intros h p r Hp Hr. destruct (I4 h p r Hp Hr) as [?|[Hin ?]]; [by left|].
        right. split; [by apply list_elem_of_further|done].
      * intros r err [->|Hr]%elem_of_cons Herr.
        -- apply I6. apply elem_of_app. right.
           assert (err = err0) as -> by congruence. apply list_elem_of_here.
        -- by apply I5.
      * intros e He. apply I6. apply elem_of_app. by left.
    + set (pr1 := match pr !! host peer0 with
                  | Some p => <[host peer0 := {| client := client p;
                                                 req := req p ++ [r0] |}]> pr
                  | None => <[host peer0 := {| client := peer0; req := [r0] |}]> pr
                  end).
      assert (Heq : assign_peers rs w pr1
                    = match pr !! host peer0 with
                      | Some p =>
                          assign_peers rs w
                            (<[host peer0 := {| client := client p;
                                                req := req p ++ [r0] |}]> pr)
                      | None =>
                          assign_peers rs w
                            (<[host peer0 := {| client := peer0; req := [r0] |}]> pr)
                      end).
      { unfold pr1. by destruct (pr !! host peer0). }
      rewrite <- Heq. clear Heq.
      assert (Hkeyed1 : forall h p, pr1 !! h = Some p -> host (client p) = h).
      { intros h p. unfold pr1. destruct (pr !! host peer0) as [p0|] eqn:E0;
          (destruct (decide (h = host peer0)) as [->|Hne];
           [rewrite lookup_insert_eq; intros [= <-]; simpl; eauto
           |rewrite lookup_insert_ne by done; apply Hkeyed]). }
      assert (Hmono : forall h p0 r, pr !! h = Some p0 -> r ∈ req p0 ->
                exists p, pr1 !! h = Some p /\ r ∈ req p).
      { intros h p0 r Hp0 Hr. unfold pr1.
        destruct (decide (h = host peer0)) as [->|Hne].
        - rewrite Hp0, lookup_insert_eq. eexists. split; [done|]. simpl.
          apply elem_of_app. by left.
        - destruct (pr !! host peer0); rewrite lookup_insert_ne by done; eauto. }
      assert (Hnew : exists p, pr1 !! host peer0 = Some p /\ r0 ∈ req p).
      { unfold pr1. destruct (pr !! host peer0); rewrite lookup_insert_eq;
          eexists; (split; [done|]); simpl; [|apply list_elem_of_here].
        apply elem_of_app. right. apply list_elem_of_here. }
      assert (Hold : forall h p r, pr1 !! h = Some p -> r ∈ req p ->
                (exists p0, pr !! h = Some p0 /\ r ∈ req p0) \/
                (r = r0 /\ host peer0 = h)).
      { intros h p r. unfold pr1.
        destruct (decide (h = host peer0)) as [->|Hne].
        - destruct (pr !! host peer0) as [p0|] eqn:E0;
            rewrite lookup_insert_eq; intros [= <-]; simpl.
          + intros [Hr|Hr%list_elem_of_singleton]%elem_of_app; [left; eauto|by right].
          + intros Hr%list_elem_of_singleton. by right.
        - destruct (pr !! host peer0); rewrite lookup_insert_ne by done;
            intros Hp Hr; left; eauto. }
      destruct (IH w pr1 Hkeyed1) as (I1 & I2 & I3 & I4 & I5 & I6).
      split_and!; try done.
      * intros h p0 r Hp0 Hr.
        destruct (Hmono h p0 r Hp0 Hr) as (p1 & Hp1 & Hr1). eauto.
      * intros r peer [->|Hr]%elem_of_cons Hpeer; [|by apply I3].
        assert (peer = peer0) as -> by congruence.
        destruct Hnew as (p1 & Hp1 & Hr1). eauto.
      * intros h p r Hp Hr. destruct (I4 h p r Hp Hr) as [(p1 & Hp1 & Hr1)|[Hin Hex]].
        -- destruct (Hold h p1 r Hp1 Hr1) as [?|[-> <-]]; [by left|].
           right. split; [apply list_elem_of_here|eauto].
        -- right. split; [by apply list_elem_of_further|done].
      * intros r err [->|Hr]%elem_of_cons Herr; [congruence|by apply I5].
Qed.

(** The second loop makes one call per group, in order, with the values
    of the group's requests, and logs the failed ones. *)
Lemma send_requests_calls ps : forall w,
  calls (send_requests ps w)
    = calls w ++ ((fun p =>
        CallGetPeerRateLimits (host (client p)) (heap w <$> req p)
          (GetPeerRateLimits (client p) (heap w <$> req p))) <$> ps) /\
  (forall e, e ∈ log w -> e ∈ log (send_requests ps w)).
Proof.
  induction ps as [|p ps IH]; intros w; simpl.
  - by rewrite app_nil_r.
  - destruct (GetPeerRateLimits (client p) (heap w <$> req p)) as [e|] eqn:Ee;
      match goal with |- context [send_requests ps ?w'] =>
        destruct (IH w') as [-> Hlog] end; simpl; rewrite <- app_assoc;
      (split; [done|]); intros e' He'; apply Hlog; simpl; [|done].
    apply elem_of_app. by left.
Qed.

Lemma hit_calls_to_none (h : string) (F : peer_pair -> list RateLimitReq)
    (E : peer_pair -> option error) (l : list (string * peer_pair)) :
  (forall h' p', (h', p') ∈ l -> host (client p') = h') ->
  h ∉ l.*1 ->
  hit_calls_to h
    ((fun p => CallGetPeerRateLimits (host (client p)) (F p) (E p)) <$> l.*2)
  = [].
Proof.
  induction l as [|[h0 p0] l IH]; simpl; intros Hhost Hnot; [done|].
  rewrite (Hhost h0 p0) by apply list_elem_of_here.
  rewrite decide_False.
  - apply IH.
    + intros h' p' Hin. apply Hhost. by apply list_elem_of_further.
    + intros Hin. apply Hnot. by apply list_elem_of_further.
  - intros ->. apply Hnot. apply list_elem_of_here.
Qed.

Lemma hit_calls_to_unique (h : string) (F : peer_pair -> list RateLimitReq)
    (E : peer_pair -> option error) (l : list (string * peer_pair)) (p : peer_pair) :
  NoDup l.*1 ->
  (forall h' p', (h', p') ∈ l -> host (client p') = h') ->
  (h, p) ∈ l ->
  hit_calls_to h
    ((fun p => CallGetPeerRateLimits (host (client p)) (F p) (E p)) <$> l.*2)
  = [F p].
Proof.
  induction l as [|[h0 p0] l IH]; simpl; intros Hnd Hhost Hin.
  - by apply elem_of_nil in Hin.
  - pose proof (NoDup_cons_1_1 _ _ Hnd) as Hnot.
    apply NoDup_cons_1_2 in Hnd.
    rewrite (Hhost h0 p0) by apply list_elem_of_here.
    assert (Hrest : forall h' p', (h', p') ∈ l -> host (client p') = h').
    { intros h' p' Hin'. apply Hhost. by apply list_elem_of_further. }
    apply elem_of_cons in Hin as [[= <- <-]|Hin].
    + rewrite decide_True by done. f_equal. by apply hit_calls_to_none.
    + rewrite decide_False; [by apply IH|].
      intros ->. apply Hnot. apply list_elem_of_fmap. by exists (h, p).
Qed.

Lemma range_NoDup_keys {A} (m : gmap string A) : NoDup (range A m).*1.
Proof. rewrite (range_perm A m). apply NoDup_fst_map_to_list. Qed.

Lemma elem_of_range {A} (m : gmap string A) (k : string) (x : A) :
  (k, x) ∈ range A m <-> m !! k = Some x.
Proof. rewrite (range_perm A m). apply elem_of_map_to_list. Qed.

(** The calls and the log of a whole hit flush. *)
Lemma sendHits_dispatch hits w :
  exists flush_calls,
    calls (sendHits hits w) = calls w ++ flush_calls /\
    (forall k r peer,
       hits !! k = Some r -> GetPeer (inst w) (HashKey (heap w r)) = inr peer ->
       exists requests,
         hit_calls_to (host peer) flush_calls = [requests] /\ heap w r ∈ requests) /\
    (forall k r err,
       hits !! k = Some r -> GetPeer (inst w) (HashKey (heap w r)) = inl err ->
       LogGetPeer err (HashKey (heap w r)) ∈ log (sendHits hits w)) /\
    (forall h requests e x,
       CallGetPeerRateLimits h requests e ∈ flush_calls -> x ∈ requests ->
       exists k r peer, hits !! k = Some r /\ x = heap w r /\
         GetPeer (inst w) (HashKey x) = inr peer /\ host peer = h).
Proof.
  unfold sendHits.
  assert (Hempty : forall h (g : peer_pair),
            (∅ : gmap string peer_pair) !! h = Some g -> host (client g) = h).
  { intros h g Hg. by rewrite lookup_empty in Hg. }
  destruct (assign_peers_spec (range loc hits).*2 w ∅ Hempty)
    as (I1 & _ & I3 & I4 & I5 & _).
  destruct (assign_peers_frame (range loc hits).*2 w ∅) as (Hh & _ & _ & Hc).
  destruct (assign_peers (range loc hits).*2 w ∅) as [w1 pr]. simpl in *.
  destruct (send_requests_calls (range peer_pair pr).*2 w1) as [Hc' Hlog].
  rewrite Hh, Hc in Hc'.
  eexists. split; [exact Hc'|]. split_and!.
  - intros k r peer Hk Hpeer.
    destruct (I3 r peer) as (g & Hg & Hr); [apply elem_of_range_values; eauto|done|].
    exists (heap w <$> req g). split.
    + apply (hit_calls_to_unique (host peer) (fun g => heap w <$> req g)
               (fun g => GetPeerRateLimits (client g) (heap w <$> req g))).
      * apply range_NoDup_keys.
      * intros h' g' Hin. apply (I1 h' g'). by apply elem_of_range.
      * by apply elem_of_range.
    + apply list_elem_of_fmap. eauto.
  - intros k r err Hk Herr. apply Hlog. apply I5; [|done].
    apply elem_of_range_values. eauto.
  - intros h requests e x Hcall Hx.
    apply list_elem_of_fmap in Hcall as (g & Heq & Hg).
    inversion Heq; subst. clear Heq.
    apply elem_of_range_values in Hg as [h Hg].
    apply list_elem_of_fmap in Hx as (r & -> & Hr).
    destruct (I4 h g r Hg Hr) as [(g0 & Hg0 & _)|(Hin & peer & Hpeer & Hhost)].
    + by rewrite lookup_empty in Hg0.
    + apply elem_of_range_values in Hin as [k Hk].
      exists k, r, peer. split_and!; try done. rewrite Hhost. symmetry. eauto.
Qed.

(** C9: in a hit flush, a request whose owning peer cannot be resolved is
    logged and left out of every call of the flush, while each request whose
    peer is resolved is part of the one call made to that peer's host; the
    iteration that flushes on the timer leaves an empty batch, so nothing of
    the flushed batch is kept for a later flush. *)
Theorem sendHits_drops_only_unresolved hits w :
  exists flush_calls,
    calls (sendHits hits w) = calls w ++ flush_calls /\
    (forall k r, hits !! k = Some r ->
       match GetPeer (inst w) (HashKey (heap w r)) with
       | inr peer =>
           exists requests,
             hit_calls_to (host peer) flush_calls = [requests] /\
             heap w r ∈ requests
       | inl err =>
           LogGetPeer err (HashKey (heap w r)) ∈ log (sendHits hits w) /\
           forall h requests e x,
             CallGetPeerRateLimits h requests e ∈ flush_calls ->
             x ∈ requests -> HashKey x ≠ HashKey (heap w r)
       end) /\
    (forall conf c l st',
       runAsyncHits_body conf c IntervalC (w, l) = Continue st' ->
       batch st'.2 = ∅ /\ (batch l ≠ ∅ -> st'.1 = sendHits (batch l) w)).
Proof.
  destruct (sendHits_dispatch hits w) as (flush_calls & Hc & Hok & Herr & Hall).
  exists flush_calls. split; [done|]. split.
  - intros k r Hk.
    destruct (GetPeer (inst w) (HashKey (heap w r))) as [err|peer] eqn:Eg.
    + split; [by eapply Herr|].
      intros h requests e x Hcall Hx Hkey.
      destruct (Hall h requests e x Hcall Hx) as (k' & r' & peer & _ & _ & Hp & _).
      congruence.
    + by eapply Hok.
  - intros conf c l st'. simpl.
    destruct (Interval.recv (interval l)) as [i|]; [|done].
    destruct (size (batch l) =? 0)%nat eqn:Esz; simpl; intros [= <-]; simpl.
    + apply Nat.eqb_eq, map_size_empty_inv in Esz. done.
    + done.
Qed.

(** *** Aggregation of hits *)

Lemma with_key_app (h : loc -> RateLimitReq) k ps1 ps2 :
  with_key h k (ps1 ++ ps2) = with_key h k ps1 ++ with_key h k ps2.
Proof. apply list.filter_app. Qed.

Lemma with_key_one (h : loc -> RateLimitReq) k p :
  with_key h k [p] = if decide (HashKey (h p) = k) then [p] else [].
Proof. unfold with_key. rewrite filter_cons, filter_nil. done. Qed.

Lemma sum_hits_app (h : loc -> RateLimitReq) ps1 ps2 :
  sum_hits h (ps1 ++ ps2) = sum_hits h ps1 + sum_hits h ps2.
Proof.
  induction ps1 as [|p ps1 IH]; simpl; [done|]. rewrite IH. lia.
Qed.

Lemma head_with_key (h : loc -> RateLimitReq) k ps q :
  head (with_key h k ps) = Some q -> q ∈ ps /\ HashKey (h q) = k.
Proof.
  intros Hq. apply head_Some_elem_of in Hq.
  by apply list_elem_of_filter in Hq as [? ?].
Qed.

Lemma set_Hits_same (x : RateLimitReq) : set_Hits (Hits x) x = x.
Proof. by destruct x. Qed.

Lemma aggregated_nil w : aggregated w [] w ∅.
Proof.
  unfold aggregated. split_and!; done.
Qed.

Lemma aggregated_keyed w ps w1 hits k q :
  aggregated w ps w1 hits -> hits !! k = Some q ->
  q ∈ ps /\ HashKey (heap w q) = k /\ HashKey (heap w1 q) = k.
Proof.
  intros (Hhead & Hval & _) Hq.
  pose proof Hq as Hq'. rewrite Hhead in Hq'.
  apply head_with_key in Hq' as [Hin Hkey]. split_and!; try done.
  by rewrite (Hval k q Hq).
Qed.

Lemma aggregated_dom w ps w1 hits :
  aggregated w ps w1 hits -> dom hits = keys_of (heap w) ps.
Proof.
  intros Hagg. apply set_eq. intros k. unfold keys_of.
  rewrite elem_of_dom, elem_of_list_to_set, list_elem_of_fmap. split.
  - intros [q Hq]. destruct (aggregated_keyed _ _ _ _ _ _ Hagg Hq) as (? & ? & _).
    eauto.
  - intros (p & -> & Hp). destruct Hagg as (Hhead & _). rewrite Hhead.
    destruct (with_key (heap w) (HashKey (heap w p)) ps) as [|q l] eqn:E;
      [|by eexists].
    assert (Hin : p ∈ with_key (heap w) (HashKey (heap w p)) ps)
      by (by apply list_elem_of_filter).
    rewrite E in Hin. by apply elem_of_nil in Hin.
Qed.

(** One more request received: [aggregate] keeps the batch as described. *)
Lemma aggregated_snoc w ps w1 hits p :
  aggregated w ps w1 hits ->
  p ∉ ps ->
  int64 (Hits (heap w p)) ->
  aggregated w (ps ++ [p]) (aggregate p w1 hits).1 (aggregate p w1 hits).2.
Proof.
  intros Hagg Hnew Hint.
  assert (Hout : forall k, hits !! k ≠ Some p).
  { intros k Hk. by destruct (aggregated_keyed _ _ _ _ _ _ Hagg Hk) as (? & _). }
  pose proof Hagg as (Hhead & Hval & Hrest & Hi & Hs & Hc & Hl).
  assert (Hp : heap w1 p = heap w p) by (by apply Hrest).
  unfold aggregate. rewrite Hp.
  destruct (hits !! HashKey (heap w p)) as [q|] eqn:Ek; simpl.
  - destruct (aggregated_keyed _ _ _ _ _ _ Hagg Ek) as (Hq & Hkq & _).
    pose proof Ek as Ehd. rewrite Hhead in Ehd.
    unfold aggregated; simpl. split_and!; try done.
    + intros k. rewrite Hhead, with_key_app, with_key_one.
      case_decide as Hk; [subst k|by rewrite app_nil_r].
      destruct (with_key (heap w) (HashKey (heap w p)) ps); done.
    + intros k q' Hq'. rewrite with_key_app, with_key_one.
      destruct (decide (q' = q)) as [->|Hne].
      * destruct (aggregated_keyed _ _ _ _ _ _ Hagg Hq') as (_ & Hkq' & _).
        assert (k = HashKey (heap w p)) as -> by congruence.
        rewrite decide_True by done. rewrite fn_lookup_insert.
        rewrite (Hval _ _ Ek). simpl. unfold set_Hits. simpl. f_equal.
        unfold add64. rewrite wrap64_add_l, sum_hits_app. simpl. f_equal. lia.
      * rewrite fn_lookup_insert_ne by done.
        rewrite decide_False, app_nil_r; [by apply Hval|].
        intros <-. congruence.
    + intros q' Hq'. rewrite fn_lookup_insert_ne; [by apply Hrest|].
      intros ->. by apply (Hq' (HashKey (heap w p))).
  - assert (Hnone : with_key (heap w) (HashKey (heap w p)) ps = []).
    { rewrite Hhead in Ek. by destruct (with_key _ _ ps). }
    unfold aggregated; simpl. split_and!; try done.
    + intros k. rewrite with_key_app, with_key_one.
      destruct (decide (HashKey (heap w p) = k)) as [<-|Hne].
      * by rewrite lookup_insert_eq, Hnone.
      * rewrite lookup_insert_ne, app_nil_r by done. apply Hhead.
    + intros k q'. rewrite with_key_app, with_key_one.
      destruct (decide (HashKey (heap w p) = k)) as [<-|Hne].
      * rewrite lookup_insert_eq, Hnone. intros [= <-]. simpl.
        rewrite Hp, Z.add_0_r, wrap64_id by done. by rewrite set_Hits_same.
      * rewrite lookup_insert_ne, app_nil_r by done. apply Hval.
    + intros q' Hq'. apply Hrest. intros k Hk. apply (Hq' k).
      rewrite lookup_insert_ne; [done|]. intros <-. congruence.
Qed.

Lemma run_app (body : Clock -> Select -> World Inst * Loop -> Outcome (World Inst * Loop))
    es1 es2 st :
  run body (es1 ++ es2) st
  = match run body es1 st with
    | Continue st' => run body es2 st'
    | o => o
    end.
Proof.
  revert st. induction es1 as [|e es1 IH]; intros st; simpl; [done|].
  destruct (pipeline body e st); [apply IH|done|done].
Qed.

Lemma size_aggregated w ps w1 hits :
  aggregated w ps w1 hits -> size hits = size (keys_of (heap w) ps).
Proof. intros Hagg. by rewrite <- size_dom, (aggregated_dom _ _ _ _ Hagg). Qed.

(** As long as no prefix of the sequence fills the batch, the loop keeps
    receiving and holds the aggregated batch. *)
Lemma runAsyncHits_queued conf w l (cps : list (Clock * loc)) :
  batch l = ∅ ->
  NoDup cps.*2 ->
  Forall (fun p => int64 (Hits (heap w p))) cps.*2 ->
  (forall n, (0 < n <= length cps)%nat ->
     Z.of_nat (size (keys_of (heap w) (take n cps.*2))) ≠ GlobalBatchLimit conf) ->
  exists w1 l1,
    run (runAsyncHits_body conf) (queued cps) (w, l) = Continue (w1, l1) /\
    aggregated w cps.*2 w1 (batch l1).
Proof.
  intros Hempty. induction cps as [|[c p] cps IH] using rev_ind;
    intros Hnd Hint Hlim.
  - exists w, l. split; [done|]. rewrite Hempty. apply aggregated_nil.
  - rewrite fmap_app in Hnd, Hint, Hlim |- *. simpl in *.
    apply list.NoDup_app in Hnd as (Hnd & Hnew & _).
    apply Forall_app in Hint as [Hint Hp]. rewrite Forall_singleton in Hp.
    destruct IH as (w1 & l1 & Hrun & Hagg); [done|done| |].
    { intros n Hn. specialize (Hlim n). rewrite length_app in Hlim.
      rewrite take_app_le in Hlim by (rewrite length_fmap; lia).
      apply Hlim. simpl. lia. }
    unfold queued in *. rewrite fmap_app, run_app, Hrun. simpl.
    assert (Hnotin : p ∉ cps.*2).
    { intros Hin. apply (Hnew p Hin). apply list_elem_of_here. }
    pose proof (aggregated_snoc w cps.*2 w1 (batch l1) p Hagg Hnotin Hp) as Hagg'.
    pose proof (size_aggregated _ _ _ _ Hagg') as Hsz.
    destruct (aggregate p w1 (batch l1)) as [w2 hits2]. simpl in *.
    specialize (Hlim (length (cps ++ [(c, p)]))).
    rewrite take_ge in Hlim by (rewrite !length_app, length_fmap; simpl; lia).
    rewrite <- Hsz in Hlim.
    destruct (Z.of_nat (size hits2) =? GlobalBatchLimit conf) eqn:El.
    { apply Z.eqb_eq in El. exfalso. apply Hlim; [|done].
      rewrite length_app. simpl. lia. }
    destruct (size hits2 =? 1)%nat; eexists _, _; (split; [done|]); done.
Qed.

(** C1 (amended): let the loop receive, into an empty batch, a sequence of
    distinct request objects whose hit counts are [int64] values, none of
    whose proper prefixes fills the batch.  Then the batch that is flushed
    holds, for every key of the sequence, exactly one entry: the first
    request received under the key, whose hit count is the sum of the hits
    received under the key wrapped to [int64] (the sum itself when it fits).
    That batch is flushed at once if the last request fills it and otherwise
    waits for the timer, and its flush sends each entry, with the summed
    count, in the one call made to the entry's owning peer. *)
Theorem hits_aggregate_to_wrapped_sum conf w l (cps : list (Clock * loc)) :
  batch l = ∅ ->
  NoDup cps.*2 ->
  Forall (fun p => int64 (Hits (heap w p))) cps.*2 ->
  (forall n, (0 < n < length cps)%nat ->
     Z.of_nat (size (keys_of (heap w) (take n cps.*2))) ≠ GlobalBatchLimit conf) ->
  exists w1 hits l1,
    dom hits = keys_of (heap w) cps.*2 /\
    (forall k, hits !! k = head (with_key (heap w) k cps.*2)) /\
    (forall k q, hits !! k = Some q ->
       heap w1 q
       = set_Hits (wrap64 (sum_hits (heap w) (with_key (heap w) k cps.*2)))
           (heap w q) /\
       (int64 (sum_hits (heap w) (with_key (heap w) k cps.*2)) ->
        Hits (heap w1 q) = sum_hits (heap w) (with_key (heap w) k cps.*2))) /\
    (cps ≠ [] /\ Z.of_nat (size hits) = GlobalBatchLimit conf ->
     run (runAsyncHits_body conf) (queued cps) (w, l)
       = Continue (sendHits hits w1, l1) /\
     batch l1 = ∅) /\
    (~ (cps ≠ [] /\ Z.of_nat (size hits) = GlobalBatchLimit conf) ->
     run (runAsyncHits_body conf) (queued cps) (w, l) = Continue (w1, l1) /\
     batch l1 = hits /\
     forall c i, Interval.recv (interval l1) = Some i -> hits ≠ ∅ ->
       runAsyncHits_body conf c IntervalC (w1, l1)
       = Continue (sendHits hits w1, {| batch := ∅; interval := i |})) /\
    exists flush_calls,
      calls (sendHits hits w1) = calls w1 ++ flush_calls /\
      forall k q peer, hits !! k = Some q -> GetPeer (inst w1) k = inr peer ->
        exists requests,
          hit_calls_to (host peer) flush_calls = [requests] /\
          set_Hits (wrap64 (sum_hits (heap w) (with_key (heap w) k cps.*2)))
            (heap w q) ∈ requests.
Proof.
  intros Hempty Hnd Hint Hlim.
  assert (Hfinish : forall w1 hits,
    aggregated w cps.*2 w1 hits ->
    dom hits = keys_of (heap w) cps.*2 /\
    (forall k, hits !! k = head (with_key (heap w) k cps.*2)) /\
    (forall k q, hits !! k = Some q ->
       heap w1 q
       = set_Hits (wrap64 (sum_hits (heap w) (with_key (heap w) k cps.*2)))
           (heap w q) /\
       (int64 (sum_hits (heap w) (with_key (heap w) k cps.*2)) ->
        Hits (heap w1 q) = sum_hits (heap w) (with_key (heap w) k cps.*2))) /\
    exists flush_calls,
      calls (sendHits hits w1) = calls w1 ++ flush_calls /\
      forall k q peer, hits !! k = Some q -> GetPeer (inst w1) k = inr peer ->
        exists requests,
          hit_calls_to (host peer) flush_calls = [requests] /\
          set_Hits (wrap64 (sum_hits (heap w) (with_key (heap w) k cps.*2)))
            (heap w q) ∈ requests).
  { intros w1 hits Hagg. pose proof Hagg as (Hhead & Hval & _).
    split_and!; [by eapply aggregated_dom|done| |].
    - intros k q Hq. split; [by apply Hval|].
      intros Hfit. rewrite (Hval k q Hq). simpl. by apply wrap64_id.
    - destruct (sendHits_dispatch hits w1) as (flush_calls & Hc & Hok & _).
      exists flush_calls. split; [done|]. intros k q peer Hq Hpeer.
      destruct (aggregated_keyed _ _ _ _ _ _ Hagg Hq) as (_ & _ & Hkey).
      rewrite <- Hkey in Hpeer.
      destruct (Hok k q peer Hq Hpeer) as (requests & Hcalls & Hin).
      exists requests. split; [done|]. by rewrite <- (Hval k q Hq). }
  destruct cps as [|[c p] cps _] using rev_ind.
  - exists w, ∅, l.
    destruct (Hfinish w ∅ (aggregated_nil w)) as (H0 & H1 & H2 & H3).
    split_and!; try done. by intros [? _].
  - rewrite fmap_app in Hnd, Hint, Hlim, Hfinish |- *. simpl in *.
    apply list.NoDup_app in Hnd as (Hnd & Hnew & _).
    apply Forall_app in Hint as [Hint Hp]. rewrite Forall_singleton in Hp.
    destruct (runAsyncHits_queued conf w l cps Hempty Hnd Hint)
      as (w1 & l1 & Hrun & Hagg).
    { intros n Hn. specialize (Hlim n). rewrite length_app in Hlim.
      rewrite take_app_le in Hlim by (rewrite length_fmap; lia).
      apply Hlim. simpl. lia. }
    assert (Hnotin : p ∉ cps.*2).
    { intros Hin. apply (Hnew p Hin). apply list_elem_of_here. }
    pose proof (aggregated_snoc w cps.*2 w1 (batch l1) p Hagg Hnotin Hp) as Hagg'.
    unfold queued in *. rewrite fmap_app, run_app, Hrun. simpl.
    destruct (aggregate p w1 (batch l1)) as [w2 hits2]. simpl in *.
    destruct (Hfinish w2 hits2 Hagg') as (H0 & H1 & H2 & H3).
    destruct (Z.of_nat (size hits2) =? GlobalBatchLimit conf) eqn:El;
      [apply Z.eqb_eq in El | apply Z.eqb_neq in El].
    + exists w2, hits2, {| batch := ∅; interval := interval l1 |}.
      split_and!; try done. intros Hno. exfalso. apply Hno. split; [|done].
      by destruct cps.
    + assert (Hflush : forall l2, batch l2 = hits2 ->
        forall c' i, Interval.recv (interval l2) = Some i -> hits2 ≠ ∅ ->
          runAsyncHits_body conf c' IntervalC (w2, l2)
          = Continue (sendHits hits2 w2, {| batch := ∅; interval := i |})).
      { intros l2 Hl2 c' i Hrecv Hne. simpl. rewrite Hrecv, Hl2.
        destruct (size hits2 =? 0)%nat eqn:Esz; [|done].
        apply Nat.eqb_eq, map_size_empty_inv in Esz. done. }
      destruct (size hits2 =? 1)%nat; eexists w2, hits2, _;
        (split_and!; [done|done|done|by intros [_ ?]|intros _|done]);
        (split_and!; [done|done|by apply Hflush]).
Qed.

(** *** The debounce timer *)

Lemma Next_armed (t : Z) (i : Interval.t) :
  Interval.armed i -> Interval.Next t i = i.
Proof. unfold Interval.armed, Interval.Next. by intros [d ->]. Qed.

Lemma Next_idle (t : Z) (i : Interval.t) :
  Interval.deadline i = None ->
  Interval.deadline (Interval.Next t i) = Some (t + Interval.wait i) /\
  Interval.wait (Interval.Next t i) = Interval.wait i /\
  Interval.C (Interval.Next t i) = Interval.C i.
Proof. unfold Interval.Next. by intros ->. Qed.

(** A pending batch has its flush on the way: the timer is armed, or it
    has fired and its signal waits to be read. *)
Lemma runAsyncHits_flush_pending conf w0 st :
  reachable (runAsyncHits_body conf) w0 conf st ->
  batch st.2 ≠ ∅ ->
  Interval.armed (interval st.2) \/ Interval.C (interval st.2) = true.
Proof.
  intros Hreach. induction Hreach as [|e [w l] st' _ IH Hstep]; [done|].
  destruct e as [c [r| |]|t]; simpl in Hstep.
  - pose proof (aggregate_dom r w (batch l)) as Hdom.
    destruct (aggregate r w (batch l)) as [w1 hits]. simpl in *.
    destruct (Z.of_nat (size hits) =? GlobalBatchLimit conf).
    { by injection Hstep as <-. }
    destruct (size hits =? 1)%nat eqn:E1; injection Hstep as <-; simpl; intros _.
    + left. unfold Interval.armed, Interval.Next.
      destruct (Interval.deadline (interval l)) eqn:Ed; simpl; rewrite ?Ed; eauto.
    + apply IH. intros Hempty. rewrite Hempty, dom_empty_L in Hdom.
      rewrite (left_id_L ∅ (∪)) in Hdom.
      apply Nat.eqb_neq in E1. apply E1.
      by rewrite <- size_dom, Hdom, size_singleton.
  - destruct (Interval.recv (interval l)) as [i|] eqn:Er; [|done].
    destruct (size (batch l) =? 0)%nat eqn:E0; simpl in Hstep;
      injection Hstep as <-; simpl; [|done].
    apply Nat.eqb_eq, map_size_empty_inv in E0. done.
  - done.
  - unfold Interval.fire in Hstep.
    destruct (Interval.deadline (interval l)) as [d|]; [|done].
    destruct (d <=? t); [|done]. injection Hstep as <-. simpl. by right.
Qed.


(** *** Further properties of the loops *)

(** X1: updates are deduplicated by key, the last one wins: when two
    requests with the same key are received in a row and the batch is not
    filled, the batch holds one entry for the key, the second request. *)
Theorem updates_last_write_wins conf c1 c2 r1 r2 w l :
  HashKey (heap w r1) = HashKey (heap w r2) ->
  Z.of_nat (size (dom (batch l) ∪ {[HashKey (heap w r1)]})) ≠ GlobalBatchLimit conf ->
  exists l2,
    run (runBroadcasts_body conf) (queued [(c1, r1); (c2, r2)]) (w, l)
      = Continue (w, l2) /\
    batch l2 !! HashKey (heap w r2) = Some r2 /\
    dom (batch l2) = dom (batch l) ∪ {[HashKey (heap w r2)]}.
Proof.
  intros Hkey Hlim. unfold queued. simpl.
  assert (Hsz1 : size (<[HashKey (heap w r1):=r1]> (batch l))
                 = size (dom (batch l) ∪ {[HashKey (heap w r1)]})).
  { by rewrite <- size_dom, dom_insert_L, (comm_L (∪)). }
  rewrite Hsz1. destruct (Z.of_nat _ =? GlobalBatchLimit conf) eqn:El;
    [apply Z.eqb_eq in El; done|].
  assert (Hfin : forall i1,
    exists l2,
      match
        runBroadcasts_body conf c2 (Recv r2)
          (w, {| batch := <[HashKey (heap w r1):=r1]> (batch l); interval := i1 |})
      with
      | Continue st' => Continue st'
      | o => o
      end = Continue (w, l2) /\
      batch l2 !! HashKey (heap w r2) = Some r2 /\
      dom (batch l2) = dom (batch l) ∪ {[HashKey (heap w r2)]}).
  { intros i1. simpl. rewrite Hkey, insert_insert_eq.
    rewrite Hkey in Hsz1, El. rewrite <- size_dom, dom_insert_L, (comm_L (∪)), El.
    destruct (_ =? 1)%nat; eexists; (split; [done|]); simpl;
      rewrite lookup_insert_eq, dom_insert_L, (comm_L (∪)); done. }
  destruct (_ =? 1)%nat; apply Hfin.
Qed.


End Properties.

(** ** Further properties of the flushes and the loops *)

Section Coverage.

Context {go : GoRuntime} {Inst : Type} {collab : Collaborators Inst}.

Implicit Types (w : World Inst) (l : Loop) (st : World Inst * Loop).
Implicit Types (hits updates : gmap string loc) (r q : loc).

(** *** The groups that sendHits builds *)

(** The first loop of [sendHits] never leaves a group empty, puts every
    request whose peer is found into one group and no other request
    anywhere, and logs the failed lookups in the order of the iteration. *)
Lemma assign_peers_groups rs : forall w pr,
  (forall h g, pr !! h = Some g -> req g ≠ []) ->
  (forall h g, (assign_peers rs w pr).2 !! h = Some g -> req g ≠ []) /\
  mjoin (req <$> (map_to_list (assign_peers rs w pr).2).*2)
    ≡ₚ mjoin (req <$> (map_to_list pr).*2)
       ++ filter (fun r => resolves (inst w) (heap w r) = true) rs /\
  log (assign_peers rs w pr).1 = log w ++ lookup_errors (inst w) (heap w <$> rs).
Proof.
  induction rs as [|r rs IH]; intros w pr Hne; simpl.
  - by rewrite !app_nil_r.
  - unfold lookup_errors, resolves. simpl.
    destruct (GetPeer (inst w) (HashKey (heap w r))) as [err|peer] eqn:Eg.
    + destruct (IH (Errorf (LogGetPeer err (HashKey (heap w r))) w) pr Hne)
        as (H1 & H2 & H3).
      split_and!; [done| |].
      * rewrite H2. simpl. rewrite filter_cons_False; [done|].
        unfold resolves. by rewrite Eg.
      * rewrite H3. simpl. by rewrite <- app_assoc.
    + set (g1 := match pr !! host peer with
                 | Some p => {| client := client p; req := req p ++ [r] |}
                 | None => {| client := peer; req := [r] |}
                 end).
      assert (Heq : assign_peers rs w (<[host peer := g1]> pr)
                    = match pr !! host peer with
                      | Some p =>
                          assign_peers rs w
                            (<[host peer := {| client := client p;
                                               req := req p ++ [r] |}]> pr)
                      | None =>
                          assign_peers rs w
                            (<[host peer := {| client := peer; req := [r] |}]> pr)
                      end).
      { unfold g1. by destruct (pr !! host peer). }
      rewrite <- Heq. clear Heq.
      assert (Hne1 : forall h g, <[host peer := g1]> pr !! h = Some g -> req g ≠ []).
      { intros h g. destruct (decide (h = host peer)) as [->|Hh].
        - rewrite lookup_insert_eq. intros [= <-]. unfold g1.
          destruct (pr !! host peer); simpl; [|done].
          intros Hnil. by apply app_eq_nil in Hnil as [_ ?].
        - rewrite lookup_insert_ne by done. apply Hne. }
      assert (Hperm : mjoin (req <$> (map_to_list (<[host peer := g1]> pr)).*2)
                      ≡ₚ mjoin (req <$> (map_to_list pr).*2) ++ [r]).
      { unfold g1. destruct (pr !! host peer) as [p|] eqn:Ep.
        - rewrite <- insert_delete_eq.
          rewrite map_to_list_insert by apply lookup_delete_eq.
          rewrite <- (map_to_list_delete pr (host peer) p Ep). simpl.
          rewrite <- !app_assoc. f_equiv. apply Permutation_app_comm.
        - rewrite map_to_list_insert by done. simpl.
          apply Permutation_cons_append. }
      destruct (IH w (<[host peer := g1]> pr) Hne1) as (H1 & H2 & H3).
      split_and!; [done| |done].
      rewrite H2, Hperm, <- app_assoc. simpl.
      rewrite filter_cons_True; [done|]. unfold resolves. by rewrite Eg.
Qed.

Lemma send_requests_log ps : forall w,
  log (send_requests ps w)
  = log w ++ call_errors ((fun p =>
      CallGetPeerRateLimits (host (client p)) (heap w <$> req p)
        (GetPeerRateLimits (client p) (heap w <$> req p))) <$> ps).
Proof.
  induction ps as [|p ps IH]; intros w; simpl.
  - by rewrite app_nil_r.
  - destruct (GetPeerRateLimits (client p) (heap w <$> req p)) as [e|] eqn:Ee;
      rewrite IH; simpl; by rewrite <- ?app_assoc.
Qed.

Lemma filter_resolves_fmap (i : Inst) (h : loc -> RateLimitReq) (rs : list loc) :
  h <$> filter (fun r => resolves i (h r) = true) rs
  = filter (fun x => resolves i x = true) (h <$> rs).
Proof.
  induction rs as [|r rs IH]; simpl; [done|].
  destruct (decide (resolves i (h r) = true)) as [Hr|Hr].
  - rewrite filter_cons_True by done. rewrite filter_cons_True by done.
    simpl. f_equal. exact IH.
  - rewrite filter_cons_False by done. rewrite filter_cons_False by done.
    exact IH.
Qed.

Lemma hit_requests_groups (F : peer_pair -> list RateLimitReq)
    (E : peer_pair -> option error) (ps : list peer_pair) :
  hit_requests ((fun p => CallGetPeerRateLimits (host (client p)) (F p) (E p)) <$> ps)
  = mjoin (F <$> ps) /\
  hit_hosts ((fun p => CallGetPeerRateLimits (host (client p)) (F p) (E p)) <$> ps)
  = (fun p => host (client p)) <$> ps.
Proof.
  unfold hit_requests, hit_hosts.
  induction ps as [|p ps [IH1 IH2]]; simpl; [done|].
  split; f_equal; [exact IH1|exact IH2].
Qed.

(** The groups of a whole hit flush. *)
Lemma sendHits_groups hits w :
  exists pr : gmap string peer_pair,
    calls (sendHits hits w)
    = calls w ++ ((fun p =>
        CallGetPeerRateLimits (host (client p)) (heap w <$> req p)
          (GetPeerRateLimits (client p) (heap w <$> req p)))
      <$> (range peer_pair pr).*2) /\
    (forall h g, pr !! h = Some g -> host (client g) = h /\ req g ≠ []) /\
    mjoin (req <$> (range peer_pair pr).*2)
      ≡ₚ filter (fun r => resolves (inst w) (heap w r) = true) (range loc hits).*2 /\
    log (sendHits hits w)
    = log w ++ lookup_errors (inst w) (heap w <$> (range loc hits).*2)
      ++ call_errors ((fun p =>
           CallGetPeerRateLimits (host (client p)) (heap w <$> req p)
             (GetPeerRateLimits (client p) (heap w <$> req p)))
         <$> (range peer_pair pr).*2).
Proof.
  unfold sendHits.
  assert (Hempty : forall h (g : peer_pair),
            (∅ : gmap string peer_pair) !! h = Some g -> host (client g) = h).
  { intros h g Hg. by rewrite lookup_empty in Hg. }
  assert (Hempty' : forall h (g : peer_pair),
            (∅ : gmap string peer_pair) !! h = Some g -> req g ≠ []).
  { intros h g Hg. by rewrite lookup_empty in Hg. }
  destruct (assign_peers_spec (range loc hits).*2 w ∅ Hempty) as (I1 & _).
  destruct (assign_peers_groups (range loc hits).*2 w ∅ Hempty') as (G1 & G2 & G3).
  destruct (assign_peers_frame (range loc hits).*2 w ∅) as (Hh & _ & _ & Hc).
  destruct (assign_peers (range loc hits).*2 w ∅) as [w1 pr]. simpl in *.
  destruct (send_requests_calls (range peer_pair pr).*2 w1) as [Hc' _].
  pose proof (send_requests_log (range peer_pair pr).*2 w1) as Hl.
  rewrite Hh in Hc', Hl. rewrite Hc in Hc'. rewrite G3 in Hl.
  exists pr. split_and!.
  - exact Hc'.
  - intros h g Hg. split; [by eapply I1|by eapply G1].
  - rewrite (range_perm peer_pair pr), G2, map_to_list_empty. done.
  - by rewrite Hl, <- app_assoc.
Qed.

(** X3: a hit flush makes only hit calls, none of them empty and no two to
    the same host, and every request of a call was resolved by the peer
    picker to a peer of the host that the call goes to. *)
Theorem sendHits_one_call_per_owner hits w :
  exists flush_calls,
    calls (sendHits hits w) = calls w ++ flush_calls /\
    (forall c, c ∈ flush_calls ->
       exists h rs e, c = CallGetPeerRateLimits h rs e /\ rs ≠ []) /\
    NoDup (hit_hosts flush_calls) /\
    (forall h rs e x,
       CallGetPeerRateLimits h rs e ∈ flush_calls -> x ∈ rs ->
       exists peer, GetPeer (inst w) (HashKey x) = inr peer /\ host peer = h).
Proof.
  destruct (sendHits_groups hits w) as (pr & Hc & Hpr & _ & _).
  destruct (sendHits_dispatch hits w) as (flush_calls & Hc' & _ & _ & Hall).
  assert (flush_calls
          = (fun p =>
               CallGetPeerRateLimits (host (client p)) (heap w <$> req p)
                 (GetPeerRateLimits (client p) (heap w <$> req p)))
            <$> (range peer_pair pr).*2) as Hfc.
  { rewrite Hc in Hc'. by apply app_inv_head in Hc'. }
  exists flush_calls. split_and!; [done| | |].
  - intros c Hin. rewrite Hfc in Hin.
    apply list_elem_of_fmap in Hin as (g & -> & Hg).
    apply elem_of_range_values in Hg as [h Hg].
    destruct (Hpr h g Hg) as [_ Hne].
    eexists _, _, _. split; [done|]. intros Hnil.
    apply fmap_nil_inv in Hnil. done.
  - rewrite Hfc.
    destruct (hit_requests_groups (fun p => heap w <$> req p)
                (fun p => GetPeerRateLimits (client p) (heap w <$> req p))
                (range peer_pair pr).*2) as [_ ->].
    assert (Hhosts : (fun p => host (client p)) <$> (range peer_pair pr).*2
                     = (range peer_pair pr).*1).
    { rewrite <- !list_fmap_compose. apply list_fmap_ext.
      intros j [h g] Hin. simpl. apply (Hpr h g).
      apply elem_of_range. by eapply list_elem_of_lookup_2. }
    rewrite Hhosts. apply range_NoDup_keys.
  - intros h rs e x Hcall Hx.
    destruct (Hall h rs e x Hcall Hx) as (k & r & peer & _ & _ & Hp & Hh).
    eauto.
Qed.

(** X4: the calls of a hit flush carry, all together, exactly the batch
    entries that the peer picker resolves, each one once: grouping loses no
    request and sends none twice. *)
Theorem sendHits_sends_resolved_requests_once hits w :
  exists flush_calls,
    calls (sendHits hits w) = calls w ++ flush_calls /\
    hit_requests flush_calls
      ≡ₚ filter (fun x => resolves (inst w) x = true)
           (heap w <$> (map_to_list hits).*2).
Proof.
  destruct (sendHits_groups hits w) as (pr & Hc & _ & Hperm & _).
  eexists. split; [exact Hc|].
  destruct (hit_requests_groups (fun p => heap w <$> req p)
              (fun p => GetPeerRateLimits (client p) (heap w <$> req p))
              (range peer_pair pr).*2) as [-> _].
  rewrite <- filter_resolves_fmap, <- (range_perm loc hits), <- Hperm.
  clear. induction ((range peer_pair pr).*2) as [|g gs IH]; simpl; [done|].
  by rewrite fmap_app, IH.
Qed.

Lemma lookup_errors_none (i : Inst) (xs : list RateLimitReq) :
  (forall x, x ∈ xs -> resolves i x = true) -> lookup_errors i xs = [].
Proof.
  unfold lookup_errors, resolves.
  induction xs as [|x xs IH]; intros Hall; simpl; [done|].
  pose proof (Hall x (list_elem_of_here _ _)) as Hx.
  destruct (GetPeer i (HashKey x)); [done|].
  apply IH. intros x' Hx'. apply Hall. by apply list_elem_of_further.
Qed.

Lemma call_errors_none (cs : list Call) :
  (forall h rs e, CallGetPeerRateLimits h rs e ∈ cs -> e = None) ->
  (forall c, c ∈ cs -> exists h rs e, c = CallGetPeerRateLimits h rs e) ->
  call_errors cs = [].
Proof.
  unfold call_errors.
  induction cs as [|c cs IH]; intros Hok Hkind; simpl; [done|].
  destruct (Hkind c (list_elem_of_here _ _)) as (h & rs & e & ->).
  rewrite (Hok h rs e (list_elem_of_here _ _)).
  apply IH.
  - intros h' rs' e' Hin. eapply Hok. by apply list_elem_of_further.
  - intros c' Hin. apply Hkind. by apply list_elem_of_further.
Qed.

(** X5: a hit flush appends to the log one line for each batch entry whose
    peer lookup fails, in the order of the iteration, then one line for
    each remote call that returns an error, and nothing else; a flush in
    which nothing fails logs nothing. *)
Theorem sendHits_logs_each_failure_once hits w :
  exists flush_calls,
    calls (sendHits hits w) = calls w ++ flush_calls /\
    log (sendHits hits w)
    = log w ++ lookup_errors (inst w) (heap w <$> (range loc hits).*2)
      ++ call_errors flush_calls /\
    ((forall k r, hits !! k = Some r -> resolves (inst w) (heap w r) = true) ->
     (forall h rs e, CallGetPeerRateLimits h rs e ∈ flush_calls -> e = None) ->
     log (sendHits hits w) = log w).
Proof.
  destruct (sendHits_groups hits w) as (pr & Hc & _ & _ & Hl).
  eexists. split_and!; [exact Hc|exact Hl|].
  intros Hres Hok. rewrite Hl.
  rewrite lookup_errors_none, call_errors_none; [by rewrite !app_nil_r|done| |].
  - intros c (g & -> & _)%list_elem_of_fmap. eauto.
  - intros x (r & -> & [k Hk]%elem_of_range_values)%list_elem_of_fmap. eauto.
Qed.

(** *** The log and the results of updatePeers *)

(** The first loop of [updatePeers] logs each failed evaluation as it
    records it, and records what [getRateLimit] returned. *)
Lemma collect_globals_log rls : forall w G,
  exists evals,
    calls (collect_globals rls w G).1 = calls w ++ evals /\
    log (collect_globals rls w G).1 = log w ++ call_errors evals /\
    length evals = length rls /\
    Forall (fun c => exists i x, c = CallGetRateLimit x (getRateLimit i x).2) evals.
Proof.
  induction rls as [|rl rls IH]; intros w G; simpl.
  - exists []. by rewrite !app_nil_r.
  - set (h2 := <[rl:=set_Hits 0 (<[rl:=set_Behavior 0 (heap w rl)]> (heap w) rl)]>
                 (<[rl:=set_Behavior 0 (heap w rl)]> (heap w))).
    destruct (getRateLimit (inst w) (h2 rl)) as [i res] eqn:Eg.
    assert (Hfin : forall w' G',
      calls w' = calls w ++ [CallGetRateLimit (h2 rl) res] ->
      log w' = log w ++ call_errors [CallGetRateLimit (h2 rl) res] ->
      exists evals,
        calls (collect_globals rls w' G').1 = calls w ++ evals /\
        log (collect_globals rls w' G').1 = log w ++ call_errors evals /\
        length evals = S (length rls) /\
        Forall (fun c => exists i x, c = CallGetRateLimit x (getRateLimit i x).2)
          evals).
    { intros w' G' Hc Hl. destruct (IH w' G') as (evals & Hc' & Hl' & Hlen & Hres).
      exists (CallGetRateLimit (h2 rl) res :: evals). split_and!.
      - by rewrite Hc', Hc, <- app_assoc.
      - rewrite Hl', Hl, <- app_assoc. f_equal.
        symmetry. apply (omap_app _ [_] evals).
      - simpl. by rewrite Hlen.
      - constructor; [|done]. exists (inst w), (h2 rl). by rewrite Eg. }
    destruct res as [err|status]; apply Hfin; simpl; try done.
    by rewrite app_nil_r.
Qed.

Lemma send_globals_log peers G : forall w,
  log (send_globals peers G w)
  = log w ++ call_errors ((fun peer =>
      CallUpdatePeerGlobals (host peer) G (UpdatePeerGlobals peer G))
    <$> filter (fun peer => isOwner peer = false) peers).
Proof.
  induction peers as [|peer peers IH]; intros w; simpl.
  - by rewrite app_nil_r.
  - destruct (isOwner peer) eqn:Eo.
    + rewrite filter_cons_False by (rewrite Eo; done). apply IH.
    + rewrite filter_cons_True by done. simpl.
      destruct (UpdatePeerGlobals peer G) as [e|] eqn:Eu; rewrite IH; simpl;
        by rewrite <- ?app_assoc.
Qed.

(** The calls, the log and the recorded results of a whole broadcast
    flush. *)
Lemma updatePeers_log updates d w :
  exists evals,
    calls (updatePeers updates d w)
      = calls w ++ evals ++
        ((fun peer =>
            CallUpdatePeerGlobals (host peer) (evaluated evals)
              (UpdatePeerGlobals peer (evaluated evals)))
         <$> filter (fun peer => isOwner peer = false)
               (GetPeerList (inst (updatePeers updates d w)))) /\
    log (updatePeers updates d w)
      = log w ++ call_errors evals ++
        call_errors
          ((fun peer =>
              CallUpdatePeerGlobals (host peer) (evaluated evals)
                (UpdatePeerGlobals peer (evaluated evals)))
           <$> filter (fun peer => isOwner peer = false)
                 (GetPeerList (inst (updatePeers updates d w)))) /\
    length evals = size updates /\
    Forall (fun c => exists i x, c = CallGetRateLimit x (getRateLimit i x).2) evals.
Proof.
  destruct (updatePeers_spec updates d w) as (evals & _ & Hc & _).
  exists evals. split; [exact Hc|].
  revert Hc. unfold updatePeers.
  destruct (collect_globals_log (range loc updates).*2 w [])
    as (evals' & Hc' & Hl' & Hlen & Hres).
  destruct (collect_globals_spec (range loc updates).*2 w [])
    as (evals'' & Hc'' & HG & _).
  destruct (collect_globals (range loc updates).*2 w []) as [w1 G].
  simpl in *.
  assert (evals'' = evals') as ->.
  { rewrite Hc' in Hc''. by apply app_inv_head in Hc''. }
  subst G.
  destruct (send_globals_spec (GetPeerList (inst w1)) (evaluated evals') w1)
    as (Hcs & _ & _ & Hi).
  pose proof (send_globals_log (GetPeerList (inst w1)) (evaluated evals') w1) as Hls.
  assert (Hgoal : forall w2,
    calls w2 = calls (send_globals (GetPeerList (inst w1)) (evaluated evals') w1) ->
    log w2 = log (send_globals (GetPeerList (inst w1)) (evaluated evals') w1) ->
    inst w2 = inst (send_globals (GetPeerList (inst w1)) (evaluated evals') w1) ->
    calls w2 = calls w ++ evals ++
      ((fun peer =>
          CallUpdatePeerGlobals (host peer) (evaluated evals)
            (UpdatePeerGlobals peer (evaluated evals)))
       <$> filter (fun peer => isOwner peer = false) (GetPeerList (inst w2))) ->
    log w2 = log w ++ call_errors evals ++
      call_errors
        ((fun peer =>
            CallUpdatePeerGlobals (host peer) (evaluated evals)
              (UpdatePeerGlobals peer (evaluated evals)))
         <$> filter (fun peer => isOwner peer = false) (GetPeerList (inst w2))) /\
    length evals = size updates /\
    Forall (fun c => exists i x, c = CallGetRateLimit x (getRateLimit i x).2) evals).
  { intros w2 Hc2 Hl2 Hi2 Hc.
    assert (evals = evals') as ->.
    { rewrite Hc2, Hcs, Hc', <- app_assoc in Hc.
      apply app_inv_head in Hc. rewrite Hi2, Hi in Hc.
      assert (Hlen' : length evals' = length evals).
      { apply (f_equal length) in Hc. rewrite !length_app, !length_fmap in Hc.
        lia. }
      apply app_inj_1 in Hc as [? _]; done. }
    split_and!; [|by rewrite Hlen, length_fmap, (range_perm loc updates),
                       length_map_to_list|done].
    by rewrite Hl2, Hls, Hl', Hi2, Hi, <- app_assoc. }
  destruct (BroadcastDuration _ <? d); apply Hgoal; done.
Qed.

(** X6: a broadcast flush appends to the log one line for each failed
    local evaluation and one line for each failed send, in the order in
    which it makes these calls, and nothing else. *)
Theorem updatePeers_logs_each_failure_once updates d w :
  exists flush_calls,
    calls (updatePeers updates d w) = calls w ++ flush_calls /\
    log (updatePeers updates d w) = log w ++ call_errors flush_calls.
Proof.
  destruct (updatePeers_log updates d w) as (evals & Hc & Hl & _).
  eexists. split; [exact Hc|].
  rewrite Hl. unfold call_errors. by rewrite omap_app.
Qed.


(** *** What the loops keep *)

Lemma keyed_insert w m r : keyed w m -> keyed w (<[HashKey (heap w r) := r]> m).
Proof.
  intros Hk k q. destruct (decide (k = HashKey (heap w r))) as [->|Hne].
  - rewrite lookup_insert_eq. by intros [= <-].
  - rewrite lookup_insert_ne by done. apply Hk.
Qed.

Lemma keyed_heap w w' m :
  (forall p, HashKey (heap w' p) = HashKey (heap w p)) -> keyed w m -> keyed w' m.
Proof. intros Hkeys Hk k q Hq. rewrite Hkeys. by apply Hk. Qed.

(** A step of the hit pipeline changes the hit count of a request at most,
    never evaluates locally, and keeps the batch filed by hash key. *)
Lemma runAsyncHits_step_keeps conf e st st' :
  pipeline (runAsyncHits_body conf) e st = Continue st' ->
  (forall p, Name (heap st'.1 p) = Name (heap st.1 p) /\
             UniqueKey (heap st'.1 p) = UniqueKey (heap st.1 p) /\
             Behavior (heap st'.1 p) = Behavior (heap st.1 p)) /\
  inst st'.1 = inst st.1 /\
  (keyed st.1 (batch st.2) -> keyed st'.1 (batch st'.2)).
Proof.
  destruct st as [w l]. destruct e as [c [r| |]|t]; simpl.
  - destruct (aggregate_frame r w (batch l)) as (Hi & _ & _ & _ & Hf).
    assert (Hk : keyed w (batch l) ->
                 keyed (aggregate r w (batch l)).1 (aggregate r w (batch l)).2).
    { intros Hk. apply (keyed_heap w); [intros p; apply Hf|].
      unfold aggregate. destruct (batch l !! HashKey (heap w r)); simpl; [done|].
      by apply keyed_insert. }
    destruct (aggregate r w (batch l)) as [w1 hits]. simpl in *.
    assert (Hfields : forall p, Name (heap w1 p) = Name (heap w p) /\
                                UniqueKey (heap w1 p) = UniqueKey (heap w p) /\
                                Behavior (heap w1 p) = Behavior (heap w p)).
    { intros p. destruct (Hf p) as (? & ? & ? & _). done. }
    destruct (Z.of_nat (size hits) =? GlobalBatchLimit conf).
    + intros [= <-]. simpl.
      destruct (sendHits_frame hits w1) as (-> & -> & _).
      split_and!; try done; intros _ k q; by rewrite lookup_empty.
    + destruct (size hits =? 1)%nat; intros [= <-]; simpl; done.
  - destruct (Interval.recv (interval l)); [|done].
    destruct (negb _); intros [= <-]; simpl; [|done].
    destruct (sendHits_frame (batch l) w) as (-> & -> & _).
    split_and!; try done; intros _ k q; by rewrite lookup_empty.
  - done.
  - destruct (Interval.fire t (interval l)); [|done]. by intros [= <-].
Qed.

(** A step of the broadcast pipeline leaves every request as it is or
    clears it, and keeps the batch filed by hash key. *)
Lemma runBroadcasts_step_keeps conf e st st' :
  pipeline (runBroadcasts_body conf) e st = Continue st' ->
  (forall p, heap st'.1 p = heap st.1 p \/ heap st'.1 p = cleared (heap st.1 p)) /\
  (keyed st.1 (batch st.2) -> keyed st'.1 (batch st'.2)).
Proof.
  assert (Hflush : forall updates d w,
    (forall p, heap (updatePeers updates d w) p = heap w p \/
               heap (updatePeers updates d w) p = cleared (heap w p)) /\
    keyed (updatePeers updates d w) ∅).
  { intros updates d w. destruct (updatePeers_spec updates d w) as (_ & _ & _ & Hh).
    split; [|intros k q; by rewrite lookup_empty].
    intros p. rewrite Hh. case_decide; [by right|by left]. }
  destruct st as [w l]. destruct e as [c [r| |]|t]; simpl.
  - destruct (Z.of_nat _ =? GlobalBatchLimit conf).
    + intros [= <-]. simpl. destruct (Hflush (<[HashKey (heap w r):=r]> (batch l))
                                        (elapsed c) w). done.
    + destruct (_ =? 1)%nat; intros [= <-]; simpl;
        (split; [by left|by apply keyed_insert]).
  - destruct (Interval.recv (interval l)); [|done].
    destruct (negb _); intros [= <-]; simpl.
    + destruct (Hflush (batch l) (elapsed c) w). done.
    + split; [by left|done].
  - done.
  - destruct (Interval.fire t (interval l)); [|done]. intros [= <-].
    split; [by left|done].
Qed.

Lemma runAsyncHits_reachable_keeps conf (w0 : World Inst) st :
  reachable (runAsyncHits_body conf) w0 conf st ->
  keyed st.1 (batch st.2) /\ inst st.1 = inst w0 /\
  forall p, Name (heap st.1 p) = Name (heap w0 p) /\
            UniqueKey (heap st.1 p) = UniqueKey (heap w0 p) /\
            Behavior (heap st.1 p) = Behavior (heap w0 p).
Proof.
  intros Hreach. induction Hreach as [|e st st' _ (Hk & Hi & Hf) Hstep].
  - split_and!; done.
  - destruct (runAsyncHits_step_keeps conf e st st' Hstep) as (Hf' & Hi' & Hk').
    split_and!; [by apply Hk'|by rewrite Hi'|].
    intros p. destruct (Hf p) as (<- & <- & <-). apply Hf'.
Qed.

Lemma runBroadcasts_reachable_keeps conf (w0 : World Inst) st :
  reachable (runBroadcasts_body conf) w0 conf st ->
  keyed st.1 (batch st.2) /\
  forall p, heap st.1 p = heap w0 p \/ heap st.1 p = cleared (heap w0 p).
Proof.
  intros Hreach. induction Hreach as [|e st st' _ (Hk & Hf) Hstep].
  - split; [done|by left].
  - destruct (runBroadcasts_step_keeps conf e st st' Hstep) as (Hf' & Hk').
    split; [by apply Hk'|].
    intros p. destruct (Hf' p) as [->| ->]; destruct (Hf p) as [->| ->]; eauto.
Qed.

(** X8: whatever the loops receive, every entry of a batch stays filed
    under the hash key of the request it points to.  The hit loop never
    changes the name, the unique key or the behavior of any request and
    never touches the instance; the broadcast loop leaves every request as
    it was at the start or as that request cleared. *)
Theorem batches_stay_keyed conf (w0 : World Inst) :
  (forall st, reachable (runAsyncHits_body conf) w0 conf st ->
     keyed st.1 (batch st.2) /\ inst st.1 = inst w0 /\
     forall p, Name (heap st.1 p) = Name (heap w0 p) /\
               UniqueKey (heap st.1 p) = UniqueKey (heap w0 p) /\
               Behavior (heap st.1 p) = Behavior (heap w0 p)) /\
  (forall st, reachable (runBroadcasts_body conf) w0 conf st ->
     keyed st.1 (batch st.2) /\
     forall p, heap st.1 p = heap w0 p \/ heap st.1 p = cleared (heap w0 p)).
Proof.
  split.
  - apply runAsyncHits_reachable_keeps.
  - apply runBroadcasts_reachable_keeps.
Qed.

(** *** The calls that the pipelines make *)

Lemma NoDup_fmap_filter {A B} (f : A -> B) (P : A -> Prop)
    `{forall x, Decision (P x)} (xs : list A) :
  NoDup (f <$> xs) -> NoDup (f <$> filter P xs).
Proof.
  induction xs as [|x xs IH]; simpl; [done|]. intros Hnd.
  pose proof (NoDup_cons_1_1 _ _ Hnd) as Hx. apply NoDup_cons_1_2 in Hnd.
  destruct (decide (P x)).
  - rewrite filter_cons_True by done. simpl. apply NoDup_cons_2; [|by apply IH].
    intros (y & Hy & Hin)%list_elem_of_fmap. apply Hx.
    apply list_elem_of_fmap. exists y. split; [done|].
    by apply list_elem_of_filter in Hin as [_ ?].
  - rewrite filter_cons_False by done. by apply IH.
Qed.

Lemma NoDup_fmap_mjoin {A B} (f : A -> B) (ls : list (list A)) (xs : list A) :
  NoDup (f <$> mjoin ls) -> xs ∈ ls -> NoDup (f <$> xs).
Proof.
  induction ls as [|ys ls IH]; simpl; intros Hnd Hin.
  - by apply elem_of_nil in Hin.
  - rewrite fmap_app in Hnd. apply list.NoDup_app in Hnd as (Hys & _ & Hls).
    apply elem_of_cons in Hin as [->|Hin]; [done|by apply IH].
Qed.

Lemma range_keys_of_keyed w (m : gmap string loc) :
  keyed w m -> (fun r => HashKey (heap w r)) <$> (range loc m).*2 = (range loc m).*1.
Proof.
  intros Hk. rewrite <- list_fmap_compose. apply list_fmap_ext.
  intros j [k r] Hj. simpl. apply Hk. apply elem_of_range.
  by eapply list_elem_of_lookup_2.
Qed.

(** The calls of a hit flush of a batch filed by hash key. *)
Lemma sendHits_calls_ok hits w :
  keyed w hits ->
  exists flush_calls,
    calls (sendHits hits w) = calls w ++ flush_calls /\
    Forall (hit_call_ok (inst w)) flush_calls.
Proof.
  intros Hk.
  destruct (sendHits_groups hits w) as (pr & Hc & Hpr & Hperm & _).
  destruct (sendHits_dispatch hits w) as (flush_calls & Hc' & _ & _ & Hall).
  assert (flush_calls
          = (fun p =>
               CallGetPeerRateLimits (host (client p)) (heap w <$> req p)
                 (GetPeerRateLimits (client p) (heap w <$> req p)))
            <$> (range peer_pair pr).*2) as Hfc.
  { rewrite Hc in Hc'. by apply app_inv_head in Hc'. }
  exists flush_calls. split; [done|].
  assert (Hnd : NoDup ((fun r => HashKey (heap w r))
                       <$> mjoin (req <$> (range peer_pair pr).*2))).
  { rewrite Hperm. apply NoDup_fmap_filter.
    rewrite (range_keys_of_keyed w hits Hk). apply range_NoDup_keys. }
  apply list.Forall_forall. intros c Hin. pose proof Hin as Hin'.
  rewrite Hfc in Hin. apply list_elem_of_fmap in Hin as (g & -> & Hg).
  pose proof Hg as Hg'. apply elem_of_range_values in Hg' as [h Hh].
  destruct (Hpr h g Hh) as [_ Hne]. simpl. split_and!.
  - intros Hnil. apply fmap_nil_inv in Hnil. done.
  - rewrite <- list_fmap_compose.
    apply (NoDup_fmap_mjoin _ (req <$> (range peer_pair pr).*2)); [done|].
    apply list_elem_of_fmap. eauto.
  - intros x Hx.
    destruct (Hall _ _ _ x Hin' Hx) as (k & r & peer & _ & _ & Hp & Hhost).
    eauto.
Qed.

Lemma evaluated_keys_NoDup w (rls : list loc) (evals : list Call) :
  Forall2 (fun rl c => exists res, c = CallGetRateLimit (cleared (heap w rl)) res)
    rls evals ->
  (forall k, k ∈ Key <$> evaluated evals ->
     k ∈ (fun rl => HashKey (heap w rl)) <$> rls) /\
  (NoDup ((fun rl => HashKey (heap w rl)) <$> rls) ->
   NoDup (Key <$> evaluated evals)).
Proof.
  unfold evaluated.
  induction 1 as [|rl c rls evals [res ->] _ [IH1 IH2]]; simpl; [done|].
  destruct res as [err|status]; simpl.
  - split.
    + intros k Hk. apply list_elem_of_further. by apply IH1.
    + intros Hnd. apply IH2. by apply NoDup_cons_1_2 in Hnd.
  - split.
    + intros k [->|Hk]%elem_of_cons; [apply list_elem_of_here|].
      apply list_elem_of_further. by apply IH1.
    + intros Hnd. apply NoDup_cons_2.
      * intros Hin. apply (NoDup_cons_1_1 _ _ Hnd). by apply IH1.
      * apply IH2. by apply NoDup_cons_1_2 in Hnd.
Qed.

(** The calls of a broadcast flush of a batch filed by hash key. *)
Lemma updatePeers_calls_ok updates d w :
  keyed w updates ->
  exists flush_calls,
    calls (updatePeers updates d w) = calls w ++ flush_calls /\
    Forall broadcast_call_ok flush_calls.
Proof.
  intros Hk. destruct (updatePeers_spec updates d w) as (evals & Hall & Hc & _).
  eexists. split; [exact Hc|].
  apply Forall_app. split.
  - apply list.Forall_forall. intros c Hin.
    apply list_elem_of_lookup in Hin as [j Hj].
    destruct (Forall2_lookup_r _ _ _ _ _ Hall Hj) as (rl & _ & res & ->). done.
  - apply list.Forall_forall. intros c (peer & -> & _)%list_elem_of_fmap. simpl.
    apply (evaluated_keys_NoDup w _ _ Hall).
    rewrite (range_keys_of_keyed w updates Hk). apply range_NoDup_keys.
Qed.

(** X9: every call that the hit pipeline makes, from its start on, is a
    hit call to a host that is not empty, holds no two requests with the
    same hash key, and holds only requests whose owner, by the peer picker,
    is a peer of that host. *)
Theorem hit_pipeline_calls_ok conf (w0 : World Inst) st :
  reachable (runAsyncHits_body conf) w0 conf st ->
  exists new_calls,
    calls st.1 = calls w0 ++ new_calls /\
    Forall (hit_call_ok (inst w0)) new_calls.
Proof.
  intros Hreach.
  induction Hreach as [|e st st' Hreach (new_calls & Hc & Hok) Hstep].
  - exists []. by rewrite app_nil_r.
  - destruct (runAsyncHits_reachable_keeps conf w0 st Hreach) as (Hk & Hi & _).
    assert (Hflush : forall hits w1,
      keyed w1 hits -> inst w1 = inst st.1 -> calls w1 = calls st.1 ->
      exists new_calls',
        calls (sendHits hits w1) = calls w0 ++ new_calls' /\
        Forall (hit_call_ok (inst w0)) new_calls').
    { intros hits w1 Hk1 Hi1 Hc1.
      destruct (sendHits_calls_ok hits w1 Hk1) as (fc & Hfc & Hfok).
      exists (new_calls ++ fc). rewrite Hfc, Hc1, Hc, <- app_assoc.
      split; [done|]. apply Forall_app. split; [done|].
      by rewrite Hi1, Hi in Hfok. }
    destruct st as [w l]. destruct e as [c [r| |]|t]; simpl in Hstep.
    + destruct (aggregate_frame r w (batch l)) as (Hia & _ & _ & Hca & Hfa).
      assert (Hka : keyed (aggregate r w (batch l)).1 (aggregate r w (batch l)).2).
      { apply (keyed_heap w); [intros p; apply Hfa|].
        unfold aggregate. destruct (batch l !! HashKey (heap w r)); simpl; [done|].
        by apply keyed_insert. }
      destruct (aggregate r w (batch l)) as [w1 hits]. simpl in *.
      destruct (Z.of_nat (size hits) =? GlobalBatchLimit conf).
      * injection Hstep as <-. simpl. by apply Hflush.
      * destruct (size hits =? 1)%nat; injection Hstep as <-; simpl;
          exists new_calls; by rewrite Hca.
    + destruct (Interval.recv (interval l)); [|done].
      destruct (negb _); injection Hstep as <-; simpl; [by apply Hflush|eauto].
    + done.
    + destruct (Interval.fire t (interval l)); [|done].
      injection Hstep as <-. simpl. eauto.
Qed.

(** X10: every call that the broadcast pipeline makes, from its start on,
    is the local evaluation of a request whose hits and behavior are zero,
    or a message to a peer that has no two entries for the same key; it
    never sends a hit batch. *)
Theorem broadcast_pipeline_calls_ok conf (w0 : World Inst) st :
  reachable (runBroadcasts_body conf) w0 conf st ->
  exists new_calls,
    calls st.1 = calls w0 ++ new_calls /\
    Forall broadcast_call_ok new_calls.
Proof.
  intros Hreach.
  induction Hreach as [|e st st' Hreach (new_calls & Hc & Hok) Hstep].
  - exists []. by rewrite app_nil_r.
  - destruct (runBroadcasts_reachable_keeps conf w0 st Hreach) as (Hk & _).
    assert (Hflush : forall updates d,
      keyed st.1 updates ->
      exists new_calls',
        calls (updatePeers updates d st.1) = calls w0 ++ new_calls' /\
        Forall broadcast_call_ok new_calls').
    { intros updates d Hk1.
      destruct (updatePeers_calls_ok updates d st.1 Hk1) as (fc & Hfc & Hfok).
      exists (new_calls ++ fc). rewrite Hfc, Hc, <- app_assoc.
      split; [done|]. by apply Forall_app. }
    destruct st as [w l]. destruct e as [c [r| |]|t]; simpl in Hstep.
    + destruct (Z.of_nat _ =? GlobalBatchLimit conf).
      * injection Hstep as <-. simpl. apply Hflush. by apply keyed_insert.
      * destruct (_ =? 1)%nat; injection Hstep as <-; simpl; eauto.
    + destruct (Interval.recv (interval l)); [|done].
      destruct (negb _); injection Hstep as <-; simpl; [by apply Hflush|eauto].
    + done.
    + destruct (Interval.fire t (interval l)); [|done].
      injection Hstep as <-. simpl. eauto.
Qed.

(** *** The aggregated-hits counter over a sequence of flushes *)

Lemma flush_count (f : Flush) w :
  AsyncGlobalsCount (stats (flush f w))
  = match f with
    | HitsFlush hits => add64 (AsyncGlobalsCount (stats w)) (Z.of_nat (size hits))
    | BroadcastFlush _ _ => AsyncGlobalsCount (stats w)
    end.
Proof.
  destruct f as [hits|updates d]; simpl.
  - by destruct (sendHits_frame hits w) as (_ & _ & _ & ->).
  - by destruct (updatePeers_stats updates d w) as [-> _].
Qed.

Lemma runBroadcasts_keeps_count conf e st st' :
  pipeline (runBroadcasts_body conf) e st = Continue st' ->
  AsyncGlobalsCount (stats st'.1) = AsyncGlobalsCount (stats st.1).
Proof.
  destruct st as [w l]. destruct e as [c [r| |]|t]; simpl.
  - destruct (Z.of_nat _ =? GlobalBatchLimit conf).
    + intros [= <-]. simpl. by destruct (updatePeers_stats
        (<[HashKey (heap w r):=r]> (batch l)) (elapsed c) w) as [-> _].
    + destruct (_ =? 1)%nat; by intros [= <-].
  - destruct (Interval.recv (interval l)); [|done].
    destruct (negb _); intros [= <-]; simpl; [|done].
    by destruct (updatePeers_stats (batch l) (elapsed c) w) as [-> _].
  - done.
  - destruct (Interval.fire t (interval l)); [|done]. by intros [= <-].
Qed.

(** X11: over any sequence of hit and broadcast flushes the aggregated-hits
    counter grows by the number of keys of the hit batches flushed, as an
    [int64] sum; broadcast flushes, and all steps of the broadcast
    pipeline, leave it alone. *)
Theorem AsyncGlobalsCount_accumulates (fs : list Flush) w :
  int64 (AsyncGlobalsCount (stats w)) ->
  AsyncGlobalsCount (stats (flushes fs w))
    = wrap64 (AsyncGlobalsCount (stats w) + hit_keys_flushed fs) /\
  (int64 (AsyncGlobalsCount (stats w) + hit_keys_flushed fs) ->
   AsyncGlobalsCount (stats (flushes fs w))
     = AsyncGlobalsCount (stats w) + hit_keys_flushed fs) /\
  (forall updates d w',
     AsyncGlobalsCount (stats (updatePeers updates d w'))
       = AsyncGlobalsCount (stats w')) /\
  (forall conf e st st',
     pipeline (runBroadcasts_body conf) e st = Continue st' ->
     AsyncGlobalsCount (stats st'.1) = AsyncGlobalsCount (stats st.1)).
Proof.
  intros Hint.
  assert (Hsum : AsyncGlobalsCount (stats (flushes fs w))
                 = wrap64 (AsyncGlobalsCount (stats w) + hit_keys_flushed fs)).
  { revert w Hint. induction fs as [|f fs IH]; intros w Hint.
    - simpl. by rewrite Z.add_0_r, wrap64_id.
    - unfold flushes. simpl. fold (flushes fs (flush f w)).
      rewrite IH; rewrite (flush_count f w); destruct f as [hits|updates d];
        try done; try apply wrap64_int64.
      unfold add64. rewrite wrap64_add_l. f_equal. lia. }
  split_and!.
  - exact Hsum.
  - intros Hfit. by rewrite Hsum, wrap64_id.
  - intros updates d w'. by destruct (updatePeers_stats updates d w') as [-> _].
  - apply runBroadcasts_keeps_count.
Qed.

(** *** Batch limits that are not positive, and the limit one *)

Lemma keys_of_cons (h : loc -> RateLimitReq) p ps :
  keys_of h (p :: ps) = {[HashKey (h p)]} ∪ keys_of h ps.
Proof. done. Qed.

Lemma keys_of_ext (h h' : loc -> RateLimitReq) ps :
  (forall p, HashKey (h' p) = HashKey (h p)) -> keys_of h' ps = keys_of h ps.
Proof.
  intros Hk. unfold keys_of. f_equal. apply list_fmap_ext. intros ? p _. apply Hk.
Qed.

(** X12: with a batch limit that is zero or negative no insertion ever
    flushes: whatever requests either loop receives, it makes no call and
    the batch takes up every key received, without bound. *)
Theorem nonpositive_limit_never_flushes_on_size conf w l (cps : list (Clock * loc)) :
  GlobalBatchLimit conf <= 0 ->
  (exists w1 l1,
     run (runAsyncHits_body conf) (queued cps) (w, l) = Continue (w1, l1) /\
     dom (batch l1) = dom (batch l) ∪ keys_of (heap w) cps.*2 /\
     calls w1 = calls w /\ stats w1 = stats w) /\
  (exists l1,
     run (runBroadcasts_body conf) (queued cps) (w, l) = Continue (w, l1) /\
     dom (batch l1) = dom (batch l) ∪ keys_of (heap w) cps.*2).
Proof.
  intros Hlim. split.
  - revert w l. induction cps as [|[c p] cps IH]; intros w l.
    + exists w, l. split_and!; try done. unfold keys_of. simpl.
      by rewrite (right_id_L ∅ (∪)).
    + unfold queued. simpl. fold (queued cps).
      pose proof (aggregate_dom p w (batch l)) as Hdom.
      destruct (aggregate_frame p w (batch l)) as (_ & Hs & _ & Hc & Hf).
      destruct (aggregate p w (batch l)) as [w1 hits]. simpl in *.
      destruct (Z.of_nat (size hits) =? GlobalBatchLimit conf) eqn:El.
      { apply Z.eqb_eq in El. exfalso.
        assert (size hits ≠ 0%nat); [|lia].
        rewrite <- size_dom, Hdom. intros Hz. apply size_empty_inv in Hz.
        assert (Hin : HashKey (heap w p) ∈ dom (batch l) ∪ {[HashKey (heap w p)]}).
        { apply elem_of_union. right. by apply elem_of_singleton. }
        rewrite Hz in Hin. by apply not_elem_of_empty in Hin. }
      assert (Hfin : forall l',
        batch l' = hits ->
        exists w2 l2,
          run (runAsyncHits_body conf) (queued cps) (w1, l') = Continue (w2, l2) /\
          dom (batch l2) = dom (batch l) ∪ keys_of (heap w) (p :: cps.*2) /\
          calls w2 = calls w /\ stats w2 = stats w).
      { intros l' Hl'. destruct (IH w1 l') as (w2 & l2 & Hrun & Hd & Hc2 & Hs2).
        exists w2, l2. split_and!; [done| |by rewrite Hc2|by rewrite Hs2].
        rewrite Hd, Hl', Hdom, keys_of_cons.
        rewrite (keys_of_ext (heap w) (heap w1)) by (intros q; apply Hf).
        by rewrite <- (assoc_L (∪)). }
      destruct (size hits =? 1)%nat; apply Hfin; done.
  - revert l. induction cps as [|[c p] cps IH]; intros l.
    + exists l. split; [done|]. unfold keys_of. simpl.
      by rewrite (right_id_L ∅ (∪)).
    + unfold queued. simpl. fold (queued cps).
      destruct (Z.of_nat (size (<[HashKey (heap w p):=p]> (batch l)))
                =? GlobalBatchLimit conf) eqn:El.
      { apply Z.eqb_eq in El. exfalso.
        assert (size (<[HashKey (heap w p):=p]> (batch l)) ≠ 0%nat); [|lia].
        intros Hz. apply map_size_empty_inv in Hz.
        by apply insert_non_empty in Hz. }
      assert (Hfin : forall l',
        batch l' = <[HashKey (heap w p):=p]> (batch l) ->
        exists l2,
          run (runBroadcasts_body conf) (queued cps) (w, l') = Continue (w, l2) /\
          dom (batch l2) = dom (batch l) ∪ keys_of (heap w) (p :: cps.*2)).
      { intros l' Hl'. destruct (IH l') as (l2 & Hrun & Hd).
        exists l2. split; [done|].
        rewrite Hd, Hl', dom_insert_L, keys_of_cons.
        by rewrite (comm_L (∪) {[_]} (dom (batch l))), <- (assoc_L (∪)). }
      destruct (_ =? 1)%nat; apply Hfin; done.
Qed.

Lemma runAsyncHits_limit_one conf (w0 : World Inst) st :
  GlobalBatchLimit conf = 1 ->
  reachable (runAsyncHits_body conf) w0 conf st ->
  st.2 = new_loop conf.
Proof.
  intros Hlim Hreach. induction Hreach as [|e [w l] st' _ IH Hstep]; [done|].
  simpl in IH. subst l. destruct e as [c [r| |]|t]; simpl in Hstep; try done.
  unfold aggregate in Hstep. rewrite lookup_empty in Hstep. simpl in Hstep.
  rewrite insert_empty, map_size_singleton, Hlim in Hstep.
  by injection Hstep as <-.
Qed.

Lemma runBroadcasts_limit_one conf (w0 : World Inst) st :
  GlobalBatchLimit conf = 1 ->
  reachable (runBroadcasts_body conf) w0 conf st ->
  st.2 = new_loop conf.
Proof.
  intros Hlim Hreach. induction Hreach as [|e [w l] st' _ IH Hstep]; [done|].
  simpl in IH. subst l. destruct e as [c [r| |]|t]; simpl in Hstep; try done.
  rewrite insert_empty, map_size_singleton, Hlim in Hstep.
  by injection Hstep as <-.
Qed.

(** X13: with the batch limit one, each loop flushes every request in the
    iteration that receives it, as a batch of its own: in every state it
    can reach the batch is empty and the timer has never been armed. *)
Theorem limit_one_flushes_every_request conf (w0 : World Inst) :
  GlobalBatchLimit conf = 1 ->
  (forall st c r,
     reachable (runAsyncHits_body conf) w0 conf st ->
     batch st.2 = ∅ /\ Interval.deadline (interval st.2) = None /\
     runAsyncHits_body conf c (Recv r) st
     = Continue (sendHits {[HashKey (heap st.1 r) := r]} st.1, st.2)) /\
  (forall st c r,
     reachable (runBroadcasts_body conf) w0 conf st ->
     batch st.2 = ∅ /\ Interval.deadline (interval st.2) = None /\
     runBroadcasts_body conf c (Recv r) st
     = Continue (updatePeers {[HashKey (heap st.1 r) := r]} (elapsed c) st.1, st.2)).
Proof.
  intros Hlim. split.
  - intros [w l] c r Hreach.
    pose proof (runAsyncHits_limit_one conf w0 _ Hlim Hreach) as Hl.
    simpl in Hl. subst l. split_and!; try done. simpl.
    unfold aggregate. rewrite lookup_empty. simpl.
    by rewrite insert_empty, map_size_singleton, Hlim.
  - intros [w l] c r Hreach.
    pose proof (runBroadcasts_limit_one conf w0 _ Hlim Hreach) as Hl.
    simpl in Hl. subst l. split_and!; try done. simpl.
    by rewrite insert_empty, map_size_singleton, Hlim.
Qed.

(** *** The order in which hits arrive *)

Lemma sum_hits_perm (h : loc -> RateLimitReq) ps1 ps2 :
  ps1 ≡ₚ ps2 -> sum_hits h ps1 = sum_hits h ps2.
Proof.
  induction 1 as [|p ps1 ps2 _ IH|p q ps|ps1 ps2 ps3 _ IH1 _ IH2]; simpl.
  - done.
  - by rewrite IH.
  - lia.
  - by rewrite IH1.
Qed.

Lemma keys_of_perm (h : loc -> RateLimitReq) ps1 ps2 :
  ps1 ≡ₚ ps2 -> keys_of h ps1 = keys_of h ps2.
Proof.
  intros Hperm. unfold keys_of. apply list_to_set_perm_L.
  by apply fmap_Permutation.
Qed.

Lemma keys_of_take_size (h : loc -> RateLimitReq) n ps :
  (size (keys_of h (take n ps)) <= size (keys_of h ps))%nat.
Proof.
  apply subseteq_size. intros k. unfold keys_of.
  rewrite !elem_of_list_to_set, !list_elem_of_fmap.
  intros (p & -> & Hp). exists p. split; [done|].
  by apply (subseteq_take n ps).
Qed.

(** X14: the hits a batch holds for a key do not depend on the order in
    which the requests arrived: two arrival orders of the same distinct
    request objects, with fewer keys than the batch limit, give batches
    with the same keys and, under each key, a request with the same key
    and the same summed hits (the object that carries them is the first
    one received in each order). *)
Theorem aggregated_hits_order_independent conf w l (cps1 cps2 : list (Clock * loc)) :
  batch l = ∅ ->
  NoDup cps1.*2 ->
  Forall (fun p => int64 (Hits (heap w p))) cps1.*2 ->
  cps1.*2 ≡ₚ cps2.*2 ->
  Z.of_nat (size (keys_of (heap w) cps1.*2)) < GlobalBatchLimit conf ->
  exists w1 l1 w2 l2,
    run (runAsyncHits_body conf) (queued cps1) (w, l) = Continue (w1, l1) /\
    run (runAsyncHits_body conf) (queued cps2) (w, l) = Continue (w2, l2) /\
    dom (batch l1) = dom (batch l2) /\
    forall k q1 q2,
      batch l1 !! k = Some q1 -> batch l2 !! k = Some q2 ->
      Hits (heap w1 q1) = Hits (heap w2 q2) /\
      HashKey (heap w1 q1) = k /\ HashKey (heap w2 q2) = k /\
      head (with_key (heap w) k cps1.*2) = Some q1 /\
      head (with_key (heap w) k cps2.*2) = Some q2.
Proof.
  intros Hempty Hnd Hint Hperm Hlim.
  destruct (runAsyncHits_queued conf w l cps1) as (w1 & l1 & Hrun1 & Hagg1);
    [done|done|done| |].
  { intros n _. pose proof (keys_of_take_size (heap w) n cps1.*2). lia. }
  destruct (runAsyncHits_queued conf w l cps2) as (w2 & l2 & Hrun2 & Hagg2);
    [done|by rewrite <- Hperm|by rewrite <- Hperm| |].
  { intros n _. pose proof (keys_of_take_size (heap w) n cps2.*2).
    rewrite <- (keys_of_perm (heap w) _ _ Hperm) in H. lia. }
  exists w1, l1, w2, l2. split_and!; try done.
  - rewrite (aggregated_dom _ _ _ _ Hagg1), (aggregated_dom _ _ _ _ Hagg2).
    by apply keys_of_perm.
  - intros k q1 q2 Hq1 Hq2.
    destruct (aggregated_keyed _ _ _ _ _ _ Hagg1 Hq1) as (_ & _ & Hk1).
    destruct (aggregated_keyed _ _ _ _ _ _ Hagg2 Hq2) as (_ & _ & Hk2).
    destruct Hagg1 as (Hhead1 & Hval1 & _). destruct Hagg2 as (Hhead2 & Hval2 & _).
    split_and!; try done.
    + rewrite (Hval1 k q1 Hq1), (Hval2 k q2 Hq2). simpl. f_equal.
      apply sum_hits_perm. unfold with_key. by apply filter_Permutation.
    + by rewrite <- Hhead1.
    + by rewrite <- Hhead2.
Qed.

(** *** A request object queued in both pipelines *)

(** X15: the two pipelines share the request objects. When a broadcast
    flush runs before a hit flush, every request of the hit batch that was
    also in the broadcast batch goes to its owner cleared, with zero hits
    and without the GLOBAL behaviour, so the hits aggregated into it are
    lost; every other request goes out as it was. *)
Theorem broadcast_flush_zeroes_pending_hits hits updates d w :
  exists flush_calls,
    calls (sendHits hits (updatePeers updates d w))
      = calls (updatePeers updates d w) ++ flush_calls /\
    forall k r peer,
      hits !! k = Some r ->
      GetPeer (inst (updatePeers updates d w)) (HashKey (heap w r)) = inr peer ->
      exists requests,
        hit_calls_to (host peer) flush_calls = [requests] /\
        ((exists k', updates !! k' = Some r) -> cleared (heap w r) ∈ requests) /\
        ((forall k', updates !! k' ≠ Some r) -> heap w r ∈ requests).
Proof.
  destruct (updatePeers_spec updates d w) as (_ & _ & _ & Hheap).
  destruct (sendHits_dispatch hits (updatePeers updates d w))
    as (flush_calls & Hcalls & Hsent & _).
  exists flush_calls. split; [done|].
  intros k r peer Hr Hpeer.
  destruct (Hsent k r peer Hr) as (requests & Hto & Hin).
  { rewrite Hheap. by destruct (decide _). }
  exists requests. split; [done|]. rewrite Hheap in Hin. split.
  - intros Hex. apply elem_of_range_values in Hex.
    by rewrite decide_True in Hin.
  - intros Hno. rewrite decide_False in Hin; [done|].
    intros Hex. apply elem_of_range_values in Hex as [k' Hk']. by apply (Hno k').
Qed.

End Coverage.

(** ** The properties on the concrete cluster *)

Import Scenario.

(** Three hits on one key, batch limit 10: once the timer has fired, one
    call goes to the key's owner, with a single request carrying 3 hits. *)
Example three_hits_one_request :
  match run (runAsyncHits_body conf) (queued three_hits ++ timer_flush 0) start with
  | Continue (w1, l1) =>
      calls w1 = [CallGetPeerRateLimits "p1" [request "K1" 3 Behavior_GLOBAL] None] /\
      batch l1 = ∅ /\ AsyncGlobalsCount (stats w1) = 1
  | _ => False
  end.
Proof. vm_compute. done. Qed.

(** A batch with [K3], whose peer cannot be resolved, [K4] and [K2]: [K3] is
    logged and dropped, the two others are sent, and all three are
    counted although the call to [p2] failed. *)
Example unresolved_key_is_dropped :
  match
    run (runAsyncHits_body conf)
      (queued [(at_time 0, 5%positive); (at_time 1, 6%positive);
               (at_time 2, 4%positive)] ++ timer_flush 0) start
  with
  | Continue (w1, l1) =>
      calls w1
      = [CallGetPeerRateLimits "p1" [request "K4" 4 Behavior_GLOBAL] None;
         CallGetPeerRateLimits "p2" [request "K2" 5 Behavior_GLOBAL]
           (Some "deadline exceeded")] /\
      log w1 = [LogGetPeer "unable to pick a peer" "limit_K3";
                LogSendHits "deadline exceeded" "p2"] /\
      batch l1 = ∅ /\ AsyncGlobalsCount (stats w1) = 3
  | _ => False
  end.
Proof. vm_compute. done. Qed.

(** Two updates, three peers of which one is the local node: two calls,
    each with both entries; the requests end cleared. *)
Example two_updates_two_calls :
  match
    run (runBroadcasts_body conf)
      (queued [(at_time 0, 1%positive); (at_time 1, 4%positive)] ++ timer_flush 7)
      start
  with
  | Continue (w1, l1) =>
      hit_calls_to "self" (calls w1) = [] /\
      omap (fun c => match c with
                     | CallUpdatePeerGlobals h G _ => Some (h, Key <$> G)
                     | _ => None
                     end) (calls w1)
      = [("p1", ["limit_K1"; "limit_K2"]); ("p2", ["limit_K1"; "limit_K2"])] /\
      heap w1 1%positive = request "K1" 0 0 /\
      heap w1 4%positive = request "K2" 0 0 /\
      BroadcastDuration (stats w1) = 7
  | _ => False
  end.
Proof. vm_compute. done. Qed.

(** The batch keeps the first object and adds to it in place: if that very
    object is queued again, the loop adds its current count to itself, so
    one object of 1 hit queued three times ends with 4 hits. *)
Example requeued_object_adds_to_itself :
  match
    run (runAsyncHits_body conf)
      (queued [(at_time 0, 1%positive); (at_time 1, 1%positive);
               (at_time 2, 1%positive)]) start
  with
  | Continue (w1, l1) =>
      batch l1 !! "limit_K1" = Some 1%positive /\
      Hits (heap w1 1%positive) = 4
  | _ => False
  end.
Proof. vm_compute. done. Qed.

(** Witness of C1: the three hits on [K1]. *)
Lemma hits_aggregate_to_wrapped_sum_witness :
  exists w1 hits l1,
    dom hits = {["limit_K1"]} /\
    hits !! "limit_K1" = Some 1%positive /\
    heap w1 1%positive = request "K1" 3 Behavior_GLOBAL /\
    run (runAsyncHits_body conf) (queued three_hits) start = Continue (w1, l1) /\
    batch l1 = hits.
Proof.
  destruct (hits_aggregate_to_wrapped_sum conf world (new_loop conf) three_hits)
    as (w1 & hits & l1 & Hdom & Hhead & Hval & _ & Hrun & _).
  - reflexivity.
  - apply (bool_decide_unpack (NoDup three_hits.*2)). vm_compute. exact I.
  - repeat (first [apply Forall_nil_2 | apply Forall_cons_2]);
      (split; [vm_compute; discriminate | vm_compute; reflexivity]).
  - intros n Hn. assert (n = 1 \/ n = 2)%nat as [-> | ->] by (simpl in Hn; lia);
      vm_compute; discriminate.
  - assert (Hk : hits !! "limit_K1" = Some 1%positive) by (by rewrite Hhead).
    exists w1, hits, l1. split_and!.
    + rewrite Hdom. vm_compute. reflexivity.
    + exact Hk.
    + destruct (Hval _ _ Hk) as [-> _]. vm_compute. reflexivity.
    + apply Hrun. intros [_ Hsz]. rewrite <- size_dom, Hdom in Hsz.
      vm_compute in Hsz. discriminate.
    + apply Hrun. intros [_ Hsz]. rewrite <- size_dom, Hdom in Hsz.
      vm_compute in Hsz. discriminate.
Defined.

(** Counterexample to C1 as stated: two requests of 2^62 hits each on one
    key leave a batch entry of -2^63 hits, while the increments sum to
    2^63. *)
Lemma hits_sum_wraps_around :
  match run (runAsyncHits_body conf) (queued two_large_hits) start with
  | Continue (w1, l1) =>
      batch l1 !! "limit_K5" = Some 7%positive /\
      size (batch l1) = 1%nat /\
      Hits (heap w1 7%positive) = - 2 ^ 63 /\
      sum_hits objects two_large_hits.*2 = 2 ^ 63 /\
      Hits (heap w1 7%positive) ≠ sum_hits objects two_large_hits.*2
  | _ => False
  end.
Proof. vm_compute. done. Qed.


(** Witness of C3: the first request into the empty batch, limit 10. *)
Lemma size_flush_exactly_at_limit_witness :
  0 < GlobalBatchLimit conf /\
  exists st',
    runAsyncHits_body conf (at_time 0) (Recv 1%positive) start = Continue st' /\
    batch st'.2 = {["limit_K1" := 1%positive]} /\
    calls st'.1 = [].
Proof.
  assert (Hpos : 0 < GlobalBatchLimit conf) by reflexivity.
  split; [exact Hpos|].
  destruct (size_flush_exactly_at_limit conf world Hpos) as [Hhits _].
  destruct (Hhits start (at_time 0) 1%positive (reachable_new _ _ _))
    as (st' & Hrun & _ & _ & Hno & _).
  exists st'. split; [exact Hrun|].
  destruct Hno as (_ & Hb & Hc & _).
  - vm_compute. discriminate.
  - split; [exact Hb|exact Hc].
Defined.


(** Witness of X1: two updates for [K1] in a row. *)
Lemma updates_last_write_wins_witness :
  exists l2,
    run (runBroadcasts_body conf)
      (queued [(at_time 0, 1%positive); (at_time 1, 2%positive)]) start
    = Continue (world, l2) /\
    batch l2 !! "limit_K1" = Some 2%positive /\
    size (dom (batch l2)) = 1%nat.
Proof.
  destruct (updates_last_write_wins conf (at_time 0) (at_time 1) 1%positive
              2%positive world (new_loop conf))
    as (l2 & Hrun & Hlast & Hdom).
  - reflexivity.
  - vm_compute. discriminate.
  - exists l2. split_and!; [exact Hrun|exact Hlast|].
    rewrite Hdom. vm_compute. reflexivity.
Defined.


(** Witness of X9: the hit loop with limit one after a hit on [K2]. *)
Lemma hit_pipeline_calls_ok_witness :
  exists new_calls,
    calls (sendHits {["limit_K2" := 4%positive]} world) = calls world ++ new_calls /\
    Forall (hit_call_ok (inst world)) new_calls.
Proof.
  apply (hit_pipeline_calls_ok limit_one world
           (sendHits {["limit_K2" := 4%positive]} world, new_loop limit_one)).
  apply (reachable_step _ _ _ (Iter (at_time 0) (Recv 4%positive))
           (world, new_loop limit_one)).
  - apply reachable_new.
  - vm_compute. reflexivity.
Defined.

(** Witness of X10: the broadcast loop with limit one after an update for
    [K2]. *)
Lemma broadcast_pipeline_calls_ok_witness :
  exists new_calls,
    calls (updatePeers {["limit_K2" := 4%positive]} 0 world)
    = calls world ++ new_calls /\
    Forall broadcast_call_ok new_calls.
Proof.
  apply (broadcast_pipeline_calls_ok limit_one world
           (updatePeers {["limit_K2" := 4%positive]} 0 world, new_loop limit_one)).
  apply (reachable_step _ _ _ (Iter (at_time 0) (Recv 4%positive))
           (world, new_loop limit_one)).
  - apply reachable_new.
  - vm_compute. reflexivity.
Defined.

(** Witness of X11: a hit flush of three keys, a broadcast flush and a hit
    flush of one key count four keys. *)
Lemma AsyncGlobalsCount_accumulates_witness :
  AsyncGlobalsCount
    (stats (flushes [HitsFlush some_hits; BroadcastFlush some_updates 5;
                     HitsFlush {["limit_K1" := 1%positive]}] world))
  = 4.
Proof.
  destruct (AsyncGlobalsCount_accumulates
              [HitsFlush some_hits; BroadcastFlush some_updates 5;
               HitsFlush {["limit_K1" := 1%positive]}] world)
    as (_ & Hfit & _).
  - split; [vm_compute; discriminate | vm_compute; reflexivity].
  - rewrite Hfit.
    + vm_compute. reflexivity.
    + split; [vm_compute; discriminate | vm_compute; reflexivity].
Defined.

(** Witness of X12: three hits on [K1] with the batch limit zero. *)
Lemma nonpositive_limit_never_flushes_on_size_witness :
  exists w1 l1,
    run (runAsyncHits_body no_limit) (queued three_hits) (world, new_loop no_limit)
    = Continue (w1, l1) /\
    dom (batch l1) = {["limit_K1"]} /\ calls w1 = [].
Proof.
  destruct (nonpositive_limit_never_flushes_on_size no_limit world
              (new_loop no_limit) three_hits)
    as [(w1 & l1 & Hrun & Hdom & Hcalls & _) _].
  - vm_compute. discriminate.
  - exists w1, l1. split_and!; [exact Hrun| |exact Hcalls].
    rewrite Hdom. vm_compute. reflexivity.
Defined.

(** Witness of X13: the first hit on [K2] with the batch limit one. *)
Lemma limit_one_flushes_every_request_witness :
  runAsyncHits_body limit_one (at_time 0) (Recv 4%positive)
    (world, new_loop limit_one)
  = Continue (sendHits {["limit_K2" := 4%positive]} world, new_loop limit_one).
Proof.
  destruct (limit_one_flushes_every_request limit_one world) as [Hhits _].
  - reflexivity.
  - destruct (Hhits (world, new_loop limit_one) (at_time 0) 4%positive)
      as (_ & _ & Hstep).
    + apply reachable_new.
    + exact Hstep.
Defined.

(** Witness of X14: the three hits on [K1] in both orders. *)
Lemma aggregated_hits_order_independent_witness :
  exists w1 l1 w2 l2,
    run (runAsyncHits_body conf) (queued three_hits) start = Continue (w1, l1) /\
    run (runAsyncHits_body conf) (queued three_hits_reversed) start
    = Continue (w2, l2) /\
    dom (batch l1) = dom (batch l2).
Proof.
  destruct (aggregated_hits_order_independent conf world (new_loop conf)
              three_hits three_hits_reversed)
    as (w1 & l1 & w2 & l2 & Hrun1 & Hrun2 & Hdom & _).
  - reflexivity.
  - apply (bool_decide_unpack (NoDup three_hits.*2)). vm_compute. exact I.
  - repeat (first [apply Forall_nil_2 | apply Forall_cons_2]);
      (split; [vm_compute; discriminate | vm_compute; reflexivity]).
  - exact (Permutation_rev [1%positive; 2%positive; 3%positive]).
  - vm_compute. reflexivity.
  - exists w1, l1, w2, l2. split_and!; [exact Hrun1|exact Hrun2|exact Hdom].
Defined.
